(** * vermin: the source visitor and the version resolver

    A shallow embedding of [vermin/source_visitor.py] (class
    [SourceVisitor]) together with the helpers of [vermin/utility.py] that it
    calls.  Python lists are lists, dicts are [gmap]s, [None] is [None] of an
    option type, and the exception [InvalidVersionException] is the second
    constructor of [result]. *)

From Stdlib Require Import QArith Qcanon Lqa Ascii String.
From stdpp Require Import base numbers option list strings gmap.

(** ** Version numbers and version pairs *)

(** The source writes versions as decimal literals ([2.7], [3.0]) and the
    integer [0]; they are only ever compared, so exact rationals stand for
    them.  [ver 27] is the literal [2.7]. *)
Definition ver (tenths : Z) : Qc := Q2Qc (tenths # 10).

(** One slot of a pair: [None] is Python's [None] (the excluded marker),
    [Some 0] is "no constraint", anything else a concrete floor. *)
Definition slot : Type := option Qc.

(** A pair [(v2_floor, v3_floor)]. *)
Definition versions : Type := slot * slot.

Inductive result (A : Type) : Type :=
| Ok (x : A)
| InvalidVersionException.
Arguments Ok {A} x.
Arguments InvalidVersionException {A}.

(** A raised exception leaves every enclosing call. *)
#[global] Instance result_bind : MBind result := λ A B k r,
  match r with
  | Ok x => k x
  | InvalidVersionException => InvalidVersionException
  end.

(** Python's [max(x, y)] on numbers: the first argument unless the second is
    strictly greater. *)
Definition py_max (x y : Qc) : Qc := if decide (x < y)%Qc then y else x.

Module Utility.

(** [combine_versions] is defined in [vermin/utility.py], of which the
    repository has the import and the tests ([test_combine_versions]) only;
    section 4.3 of the specification gives the merge, slot by slot. *)

Definition is_zero (x : slot) : bool :=
  match x with Some a => bool_decide (a = 0%Qc) | None => false end.

Definition excluded (x : slot) : bool :=
  match x with None => true | Some _ => false end.

(** Modelled from the spec: rules 2 to 4 of the merge of
    [combine_versions], on one slot: a [0] yields to the other side, then
    the excluded marker dominates, then the larger floor wins. *)
Definition merge_slot (x y : slot) : slot :=
  if is_zero x then y
  else if is_zero y then x
  else match x, y with
       | Some a, Some b => Some (py_max a b)
       | _, _ => None
       end.

(** Modelled from the spec: rule 1 of the merge of [combine_versions], seen
    from [x]: a slot of [x] is the excluded marker while [y] keeps a
    requirement on that line and excludes the opposite line, the line that
    [x] keeps, so that the two sides "exclude opposite major lines"
    (section 6) and each can be met on one line only.  A pair that excludes
    both lines keeps no line that the other side could be opposite to: it
    enters no conflict and dominates by rule 3, as where
    [test_combine_versions] merges it with [(2.0, 3.0)] from either side. *)
Definition contradicts (x y : versions) : bool :=
  (excluded x.1 && negb (excluded x.2) && negb (excluded y.1) && excluded y.2)
  || (excluded x.2 && negb (excluded x.1) && negb (excluded y.2)
      && excluded y.1).

(** Modelled from the spec: [combine_versions] of [vermin/utility.py], which
    is not among the sources: rule 1 for either side raises the conflict,
    otherwise each slot is merged by rules 2 to 4. *)
Definition combine_versions (list1 list2 : versions) : result versions :=
  if contradicts list1 list2 || contradicts list2 list1
  then InvalidVersionException
  else Ok (merge_slot list1.1 list2.1, merge_slot list1.2 list2.2).

End Utility.

Import Utility.

(** ** The rule tables

    [vermin/rules.py] is the injected, read-only knowledge base; the visitor
    is parametric in it.  A Python dict is a finite map; [CODECS_ENCODINGS],
    which the resolver iterates over, is kept as the list of its items. *)
Record rules : Type := Rules {
  MOD_REQS : gmap string versions;
  MOD_MEM_REQS : gmap string versions;
  KWARGS_REQS : gmap (string * option string) versions;
  STRFTIME_REQS : gmap string versions;
  ARRAY_TYPECODE_REQS : gmap string versions;
  CODECS_ERROR_HANDLERS : gmap string versions;
  CODECS_ERRORS_INDICES : gmap string Z;
  CODECS_ENCODINGS : list (list string * versions);
  CODECS_ENCODINGS_INDICES : gmap string (list Z);
}.

(** ** The visitor's fields

    The fields of [SourceVisitor.__init__], without the diagnostic channel
    ([__output_text], [__line_col_entities], [__depth], [__line]) and the
    configuration, which is passed along instead. *)
Record state : Type := State {
  modules : list string;
  members : list string;
  printv2 : bool;
  printv3 : bool;
  format27 : bool;
  longv2 : bool;
  bytesv3 : bool;
  fstrings : bool;
  bool_const : bool;
  annotations : bool;
  var_annotations : bool;
  coroutines : bool;
  function_name : option string;
  kwargs : list (string * option string);
  strftime_directives : list string;
  codecs_error_handlers : list string;
  codecs_encodings : list string;
  import_mem_mod : gmap string string;
  name_res : gmap string string;
  user_defs : list string;
  array_typecodes : list string;
  module_as_name : gmap string string;
}.

Definition set_modules (x : list string) (st : state) : state :=
  {| modules := x; members := members st; printv2 := printv2 st;
     printv3 := printv3 st; format27 := format27 st; longv2 := longv2 st;
     bytesv3 := bytesv3 st; fstrings := fstrings st;
     bool_const := bool_const st; annotations := annotations st;
     var_annotations := var_annotations st; coroutines := coroutines st;
     function_name := function_name st; kwargs := kwargs st;
     strftime_directives := strftime_directives st;
     codecs_error_handlers := codecs_error_handlers st;
     codecs_encodings := codecs_encodings st;
     import_mem_mod := import_mem_mod st; name_res := name_res st;
     user_defs := user_defs st; array_typecodes := array_typecodes st;
     module_as_name := module_as_name st |}.

Definition set_members (x : list string) (st : state) : state :=
  {| modules := modules st; members := x; printv2 := printv2 st;
     printv3 := printv3 st; format27 := format27 st; longv2 := longv2 st;
     bytesv3 := bytesv3 st; fstrings := fstrings st;
     bool_const := bool_const st; annotations := annotations st;
     var_annotations := var_annotations st; coroutines := coroutines st;
     function_name := function_name st; kwargs := kwargs st;
     strftime_directives := strftime_directives st;
     codecs_error_handlers := codecs_error_handlers st;
     codecs_encodings := codecs_encodings st;
     import_mem_mod := import_mem_mod st; name_res := name_res st;
     user_defs := user_defs st; array_typecodes := array_typecodes st;
     module_as_name := module_as_name st |}.

Definition set_printv2 (x : bool) (st : state) : state :=
  {| modules := modules st; members := members st; printv2 := x;
     printv3 := printv3 st; format27 := format27 st; longv2 := longv2 st;
     bytesv3 := bytesv3 st; fstrings := fstrings st;
     bool_const := bool_const st; annotations := annotations st;
     var_annotations := var_annotations st; coroutines := coroutines st;
     function_name := function_name st; kwargs := kwargs st;
     strftime_directives := strftime_directives st;
     codecs_error_handlers := codecs_error_handlers st;
     codecs_encodings := codecs_encodings st;
     import_mem_mod := import_mem_mod st; name_res := name_res st;
     user_defs := user_defs st; array_typecodes := array_typecodes st;
     module_as_name := module_as_name st |}.

Definition set_printv3 (x : bool) (st : state) : state :=
  {| modules := modules st; members := members st; printv2 := printv2 st;
     printv3 := x; format27 := format27 st; longv2 := longv2 st;
     bytesv3 := bytesv3 st; fstrings := fstrings st;
     bool_const := bool_const st; annotations := annotations st;
     var_annotations := var_annotations st; coroutines := coroutines st;
     function_name := function_name st; kwargs := kwargs st;
     strftime_directives := strftime_directives st;
     codecs_error_handlers := codecs_error_handlers st;
     codecs_encodings := codecs_encodings st;
     import_mem_mod := import_mem_mod st; name_res := name_res st;
     user_defs := user_defs st; array_typecodes := array_typecodes st;
     module_as_name := module_as_name st |}.

Definition set_format27 (x : bool) (st : state) : state :=
  {| modules := modules st; members := members st; printv2 := printv2 st;
     printv3 := printv3 st; format27 := x; longv2 := longv2 st;
     bytesv3 := bytesv3 st; fstrings := fstrings st;
     bool_const := bool_const st; annotations := annotations st;
     var_annotations := var_annotations st; coroutines := coroutines st;
     function_name := function_name st; kwargs := kwargs st;
     strftime_directives := strftime_directives st;
     codecs_error_handlers := codecs_error_handlers st;
     codecs_encodings := codecs_encodings st;
     import_mem_mod := import_mem_mod st; name_res := name_res st;
     user_defs := user_defs st; array_typecodes := array_typecodes st;
     module_as_name := module_as_name st |}.

Definition set_longv2 (x : bool) (st : state) : state :=
  {| modules := modules st; members := members st; printv2 := printv2 st;
     printv3 := printv3 st; format27 := format27 st; longv2 := x;
     bytesv3 := bytesv3 st; fstrings := fstrings st;
     bool_const := bool_const st; annotations := annotations st;
     var_annotations := var_annotations st; coroutines := coroutines st;
     function_name := function_name st; kwargs := kwargs st;
     strftime_directives := strftime_directives st;
     codecs_error_handlers := codecs_error_handlers st;
     codecs_encodings := codecs_encodings st;
     import_mem_mod := import_mem_mod st; name_res := name_res st;
     user_defs := user_defs st; array_typecodes := array_typecodes st;
     module_as_name := module_as_name st |}.

Definition set_bytesv3 (x : bool) (st : state) : state :=
  {| modules := modules st; members := members st; printv2 := printv2 st;
     printv3 := printv3 st; format27 := format27 st; longv2 := longv2 st;
     bytesv3 := x; fstrings := fstrings st; bool_const := bool_const st;
     annotations := annotations st; var_annotations := var_annotations st;
     coroutines := coroutines st; function_name := function_name st;
     kwargs := kwargs st; strftime_directives := strftime_directives st;
     codecs_error_handlers := codecs_error_handlers st;
     codecs_encodings := codecs_encodings st;
     import_mem_mod := import_mem_mod st; name_res := name_res st;
     user_defs := user_defs st; array_typecodes := array_typecodes st;
     module_as_name := module_as_name st |}.

Definition set_fstrings (x : bool) (st : state) : state :=
  {| modules := modules st; members := members st; printv2 := printv2 st;
     printv3 := printv3 st; format27 := format27 st; longv2 := longv2 st;
     bytesv3 := bytesv3 st; fstrings := x; bool_const := bool_const st;
     annotations := annotations st; var_annotations := var_annotations st;
     coroutines := coroutines st; function_name := function_name st;
     kwargs := kwargs st; strftime_directives := strftime_directives st;
     codecs_error_handlers := codecs_error_handlers st;
     codecs_encodings := codecs_encodings st;
     import_mem_mod := import_mem_mod st; name_res := name_res st;
     user_defs := user_defs st; array_typecodes := array_typecodes st;
     module_as_name := module_as_name st |}.

Definition set_bool_const (x : bool) (st : state) : state :=
  {| modules := modules st; members := members st; printv2 := printv2 st;
     printv3 := printv3 st; format27 := format27 st; longv2 := longv2 st;
     bytesv3 := bytesv3 st; fstrings := fstrings st; bool_const := x;
     annotations := annotations st; var_annotations := var_annotations st;
     coroutines := coroutines st; function_name := function_name st;
     kwargs := kwargs st; strftime_directives := strftime_directives st;
     codecs_error_handlers := codecs_error_handlers st;
     codecs_encodings := codecs_encodings st;
     import_mem_mod := import_mem_mod st; name_res := name_res st;
     user_defs := user_defs st; array_typecodes := array_typecodes st;
     module_as_name := module_as_name st |}.

Definition set_annotations (x : bool) (st : state) : state :=
  {| modules := modules st; members := members st; printv2 := printv2 st;
     printv3 := printv3 st; format27 := format27 st; longv2 := longv2 st;
     bytesv3 := bytesv3 st; fstrings := fstrings st;
     bool_const := bool_const st; annotations := x;
     var_annotations := var_annotations st; coroutines := coroutines st;
     function_name := function_name st; kwargs := kwargs st;
     strftime_directives := strftime_directives st;
     codecs_error_handlers := codecs_error_handlers st;
     codecs_encodings := codecs_encodings st;
     import_mem_mod := import_mem_mod st; name_res := name_res st;
     user_defs := user_defs st; array_typecodes := array_typecodes st;
     module_as_name := module_as_name st |}.

Definition set_var_annotations (x : bool) (st : state) : state :=
  {| modules := modules st; members := members st; printv2 := printv2 st;
     printv3 := printv3 st; format27 := format27 st; longv2 := longv2 st;
     bytesv3 := bytesv3 st; fstrings := fstrings st;
     bool_const := bool_const st; annotations := annotations st;
     var_annotations := x; coroutines := coroutines st;
     function_name := function_name st; kwargs := kwargs st;
     strftime_directives := strftime_directives st;
     codecs_error_handlers := codecs_error_handlers st;
     codecs_encodings := codecs_encodings st;
     import_mem_mod := import_mem_mod st; name_res := name_res st;
     user_defs := user_defs st; array_typecodes := array_typecodes st;
     module_as_name := module_as_name st |}.

Definition set_coroutines (x : bool) (st : state) : state :=
  {| modules := modules st; members := members st; printv2 := printv2 st;
     printv3 := printv3 st; format27 := format27 st; longv2 := longv2 st;
     bytesv3 := bytesv3 st; fstrings := fstrings st;
     bool_const := bool_const st; annotations := annotations st;
     var_annotations := var_annotations st; coroutines := x;
     function_name := function_name st; kwargs := kwargs st;
     strftime_directives := strftime_directives st;
     codecs_error_handlers := codecs_error_handlers st;
     codecs_encodings := codecs_encodings st;
     import_mem_mod := import_mem_mod st; name_res := name_res st;
     user_defs := user_defs st; array_typecodes := array_typecodes st;
     module_as_name := module_as_name st |}.

Definition set_function_name (x : option string) (st : state) : state :=
  {| modules := modules st; members := members st; printv2 := printv2 st;
     printv3 := printv3 st; format27 := format27 st; longv2 := longv2 st;
     bytesv3 := bytesv3 st; fstrings := fstrings st;
     bool_const := bool_const st; annotations := annotations st;
     var_annotations := var_annotations st; coroutines := coroutines st;
     function_name := x; kwargs := kwargs st;
     strftime_directives := strftime_directives st;
     codecs_error_handlers := codecs_error_handlers st;
     codecs_encodings := codecs_encodings st;
     import_mem_mod := import_mem_mod st; name_res := name_res st;
     user_defs := user_defs st; array_typecodes := array_typecodes st;
     module_as_name := module_as_name st |}.

Definition set_kwargs (x : list (string * option string)) (st : state) : state :=
  {| modules := modules st; members := members st; printv2 := printv2 st;
     printv3 := printv3 st; format27 := format27 st; longv2 := longv2 st;
     bytesv3 := bytesv3 st; fstrings := fstrings st;
     bool_const := bool_const st; annotations := annotations st;
     var_annotations := var_annotations st; coroutines := coroutines st;
     function_name := function_name st; kwargs := x;
     strftime_directives := strftime_directives st;
     codecs_error_handlers := codecs_error_handlers st;
     codecs_encodings := codecs_encodings st;
     import_mem_mod := import_mem_mod st; name_res := name_res st;
     user_defs := user_defs st; array_typecodes := array_typecodes st;
     module_as_name := module_as_name st |}.

Definition set_strftime_directives (x : list string) (st : state) : state :=
  {| modules := modules st; members := members st; printv2 := printv2 st;
     printv3 := printv3 st; format27 := format27 st; longv2 := longv2 st;
     bytesv3 := bytesv3 st; fstrings := fstrings st;
     bool_const := bool_const st; annotations := annotations st;
     var_annotations := var_annotations st; coroutines := coroutines st;
     function_name := function_name st; kwargs := kwargs st;
     strftime_directives := x;
     codecs_error_handlers := codecs_error_handlers st;
     codecs_encodings := codecs_encodings st;
     import_mem_mod := import_mem_mod st; name_res := name_res st;
     user_defs := user_defs st; array_typecodes := array_typecodes st;
     module_as_name := module_as_name st |}.

Definition set_codecs_error_handlers (x : list string) (st : state) : state :=
  {| modules := modules st; members := members st; printv2 := printv2 st;
     printv3 := printv3 st; format27 := format27 st; longv2 := longv2 st;
     bytesv3 := bytesv3 st; fstrings := fstrings st;
     bool_const := bool_const st; annotations := annotations st;
     var_annotations := var_annotations st; coroutines := coroutines st;
     function_name := function_name st; kwargs := kwargs st;
     strftime_directives := strftime_directives st;
     codecs_error_handlers := x; codecs_encodings := codecs_encodings st;
     import_mem_mod := import_mem_mod st; name_res := name_res st;
     user_defs := user_defs st; array_typecodes := array_typecodes st;
     module_as_name := module_as_name st |}.

Definition set_codecs_encodings (x : list string) (st : state) : state :=
  {| modules := modules st; members := members st; printv2 := printv2 st;
     printv3 := printv3 st; format27 := format27 st; longv2 := longv2 st;
     bytesv3 := bytesv3 st; fstrings := fstrings st;
     bool_const := bool_const st; annotations := annotations st;
     var_annotations := var_annotations st; coroutines := coroutines st;
     function_name := function_name st; kwargs := kwargs st;
     strftime_directives := strftime_directives st;
     codecs_error_handlers := codecs_error_handlers st;
     codecs_encodings := x; import_mem_mod := import_mem_mod st;
     name_res := name_res st; user_defs := user_defs st;
     array_typecodes := array_typecodes st;
     module_as_name := module_as_name st |}.

Definition set_import_mem_mod (x : gmap string string) (st : state) : state :=
  {| modules := modules st; members := members st; printv2 := printv2 st;
     printv3 := printv3 st; format27 := format27 st; longv2 := longv2 st;
     bytesv3 := bytesv3 st; fstrings := fstrings st;
     bool_const := bool_const st; annotations := annotations st;
     var_annotations := var_annotations st; coroutines := coroutines st;
     function_name := function_name st; kwargs := kwargs st;
     strftime_directives := strftime_directives st;
     codecs_error_handlers := codecs_error_handlers st;
     codecs_encodings := codecs_encodings st; import_mem_mod := x;
     name_res := name_res st; user_defs := user_defs st;
     array_typecodes := array_typecodes st;
     module_as_name := module_as_name st |}.

Definition set_name_res (x : gmap string string) (st : state) : state :=
  {| modules := modules st; members := members st; printv2 := printv2 st;
     printv3 := printv3 st; format27 := format27 st; longv2 := longv2 st;
     bytesv3 := bytesv3 st; fstrings := fstrings st;
     bool_const := bool_const st; annotations := annotations st;
     var_annotations := var_annotations st; coroutines := coroutines st;
     function_name := function_name st; kwargs := kwargs st;
     strftime_directives := strftime_directives st;
     codecs_error_handlers := codecs_error_handlers st;
     codecs_encodings := codecs_encodings st;
     import_mem_mod := import_mem_mod st; name_res := x;
     user_defs := user_defs st; array_typecodes := array_typecodes st;
     module_as_name := module_as_name st |}.

Definition set_user_defs (x : list string) (st : state) : state :=
  {| modules := modules st; members := members st; printv2 := printv2 st;
     printv3 := printv3 st; format27 := format27 st; longv2 := longv2 st;
     bytesv3 := bytesv3 st; fstrings := fstrings st;
     bool_const := bool_const st; annotations := annotations st;
     var_annotations := var_annotations st; coroutines := coroutines st;
     function_name := function_name st; kwargs := kwargs st;
     strftime_directives := strftime_directives st;
     codecs_error_handlers := codecs_error_handlers st;
     codecs_encodings := codecs_encodings st;
     import_mem_mod := import_mem_mod st; name_res := name_res st;
     user_defs := x; array_typecodes := array_typecodes st;
     module_as_name := module_as_name st |}.

Definition set_array_typecodes (x : list string) (st : state) : state :=
  {| modules := modules st; members := members st; printv2 := printv2 st;
     printv3 := printv3 st; format27 := format27 st; longv2 := longv2 st;
     bytesv3 := bytesv3 st; fstrings := fstrings st;
     bool_const := bool_const st; annotations := annotations st;
     var_annotations := var_annotations st; coroutines := coroutines st;
     function_name := function_name st; kwargs := kwargs st;
     strftime_directives := strftime_directives st;
     codecs_error_handlers := codecs_error_handlers st;
     codecs_encodings := codecs_encodings st;
     import_mem_mod := import_mem_mod st; name_res := name_res st;
     user_defs := user_defs st; array_typecodes := x;
     module_as_name := module_as_name st |}.

Definition set_module_as_name (x : gmap string string) (st : state) : state :=
  {| modules := modules st; members := members st; printv2 := printv2 st;
     printv3 := printv3 st; format27 := format27 st; longv2 := longv2 st;
     bytesv3 := bytesv3 st; fstrings := fstrings st;
     bool_const := bool_const st; annotations := annotations st;
     var_annotations := var_annotations st; coroutines := coroutines st;
     function_name := function_name st; kwargs := kwargs st;
     strftime_directives := strftime_directives st;
     codecs_error_handlers := codecs_error_handlers st;
     codecs_encodings := codecs_encodings st;
     import_mem_mod := import_mem_mod st; name_res := name_res st;
     user_defs := user_defs st; array_typecodes := array_typecodes st;
     module_as_name := x |}.

Definition init : state :=
  {| modules := []; members := []; printv2 := false; printv3 := false;
     format27 := false; longv2 := false; bytesv3 := false; fstrings := false;
     bool_const := false; annotations := false; var_annotations := false;
     coroutines := false; function_name := None; kwargs := [];
     strftime_directives := []; codecs_error_handlers := [];
     codecs_encodings := []; import_mem_mod := ∅; name_res := ∅;
     user_defs := []; array_typecodes := []; module_as_name := ∅ |}.

(** Modelled from the spec: [reverse_range] of [vermin/utility.py], which is
    not among the sources; [test_reverse_range] has it return the indices of
    a list, last to first. *)
Definition reverse_range {A : Type} (obj : list A) : list nat :=
  reverse (seq 0 (length obj)).

(** Modelled from the spec: [dotted_name] of [vermin/utility.py], which is
    not among the sources; [test_dotted_name] has it join the names with
    dots, nested lists flattened.  The callers here pass the flattened
    list. *)
Definition dotted_name (names : list string) : string :=
  match names with
  | [] => ""
  | n :: ns => foldl (λ acc x, acc +:+ "." +:+ x) n ns
  end.

Section Collector.

Context (R : rules).

(** *** Recording observations *)

Definition add_module (module : string) (st : state) : state :=
  if bool_decide (module ∈ user_defs st) then st
  else if bool_decide (module ∈ modules st) then st
  else set_modules (modules st ++ [module]) st.

Definition add_member (member : string) (st : state) : state :=
  if bool_decide (member ∈ user_defs st) then st
  else if bool_decide (is_Some (MOD_MEM_REQS R !! member))
  then set_members (members st ++ [member]) st
  else st.

Definition add_kwargs (function : string) (keyword : option string)
    (st : state) : state :=
  if bool_decide (function ∈ user_defs st) then st
  else
    let fn_kw := (function, keyword) in
    if bool_decide (is_Some (KWARGS_REQS R !! fn_kw))
       && negb (bool_decide (fn_kw ∈ kwargs st))
    then set_kwargs (kwargs st ++ [fn_kw]) st
    else st.

Definition add_strftime_directive (group : string) (st : state) : state :=
  set_strftime_directives (strftime_directives st ++ [group]) st.

Definition add_array_typecode (typecode : string) (st : state) : state :=
  if bool_decide (typecode ∈ array_typecodes st) then st
  else set_array_typecodes (array_typecodes st ++ [typecode]) st.

(** One of the two inner loops of [__add_user_def]:
    [for i in reverse_range(l): if l[i] == ud: del(l[i])], the indices being
    fixed before the loop.  Reading [l[i]] past the end would raise an
    [IndexError], here [None]. *)
Definition del_equal_checked (ud : string) (l : list string)
    : option (list string) :=
  foldl (λ ol i,
           l ← ol;
           x ← l !! i;
           Some (if bool_decide (x = ud) then delete i l else l))
        (Some l) (reverse_range l).

(** The same loop without the error case, which never arises
    ([del_equal_in_range]); this is the form the visitor uses. *)
Definition del_equal (ud : string) (l : list string) : list string :=
  foldl (λ l i,
           match l !! i with
           | Some x => if bool_decide (x = ud) then delete i l else l
           | None => l
           end)
        l (reverse_range l).

Definition add_user_def (name : string) (st : state) : state :=
  let st :=
    if bool_decide (name ∈ user_defs st) then st
    else set_user_defs (user_defs st ++ [name]) st in
  foldl (λ st ud,
           let st := set_modules (del_equal ud (modules st)) st in
           set_members (del_equal ud (members st)) st)
        st (user_defs st).

Definition add_name_res (source target : string) (st : state) : state :=
  set_name_res (<[source := target]> (name_res st)) st.

End Collector.

(** ** Strings *)

(** [sub in s]. *)
Fixpoint contains (sub s : string) : bool :=
  String.prefix sub s
  || match s with
     | EmptyString => false
     | String _ s' => contains sub s'
     end.

(** [s.endswith(suffix)]. *)
Definition endswith (s suffix : string) : bool :=
  String.prefix (String.rev suffix) (String.rev s).

(** [s.split(".")]: never empty, [""] for the empty string. *)
Fixpoint split_dot (s : string) : list string :=
  match s with
  | EmptyString => [EmptyString]
  | String c s' =>
      if Ascii.eqb c "."%char then EmptyString :: split_dot s'
      else match split_dot s' with
           | h :: t => String c h :: t
           | [] => [String c EmptyString]
           end
  end.

Definition in_range (lo hi : N) (c : ascii) : bool :=
  let n := Ascii.N_of_ascii c in (lo <=? n)%N && (n <=? hi)%N.

(** The class [\w] on ASCII text: letters, digits and the underscore.  On a
    Python 3 [str] the class also holds the letters and digits outside
    ASCII, which a string of bytes does not tell apart: statements about
    the directives found are for ASCII text ([ascii_only]). *)
Definition is_word (c : ascii) : bool :=
  in_range 48 57 c || in_range 65 90 c || in_range 97 122 c
  || Ascii.eqb c "_"%char.

(** [STRFTIME_DIRECTIVE_REGEX.findall(s)] for the pattern [(%\w)]: the
    matches from left to right, none overlapping another. *)
Fixpoint findall_directives_from (prev_percent : bool) (s : string)
    : list string :=
  match s with
  | EmptyString => []
  | String c s' =>
      if prev_percent && is_word c
      then String "%"%char (String c EmptyString)
           :: findall_directives_from false s'
      else findall_directives_from (Ascii.eqb c "%"%char) s'
  end.

Definition findall_directives (s : string) : list string :=
  findall_directives_from false s.

(** [s.lower()] on ASCII text. *)
Definition lower_ascii (c : ascii) : ascii :=
  if in_range 65 90 c
  then Ascii.ascii_of_N (Ascii.N_of_ascii c + 32)
  else c.

Fixpoint lower (s : string) : string :=
  match s with
  | EmptyString => EmptyString
  | String c s' => String (lower_ascii c) (lower s')
  end.

(** ** Syntax trees

    The node classes of Python's [ast] that the visitor tells apart, with
    the fields it reads; every other class is [Other] with its child nodes
    in field order.  Expression contexts ([Load], [Store]) and operator
    nodes, which the visitor ignores, are left out of the trees, and so are
    line and column numbers, which only feed the diagnostics. *)

Record alias : Type := MkAlias {
  alias_name : string;
  alias_asname : option string;
}.

Inductive constant : Type :=
| CBytes
| CValue.

#[local] Unset Elimination Schemes.
Inductive node : Type :=
| Module (body : list node)
| Expr (value : node)
| Import (names : list alias)
| ImportFrom (module : option string) (names : list alias)
| Alias (a : alias)
| Name (id : string)
| Print (dest : option node) (values : list node)
| Call (func : node) (args : list node)
       (keywords : list (option string * node))
| Keyword (arg : option string) (value : node)
| Attribute (value : node) (attr : string)
| Str (s : string)
| Bytes
| Constant (value : constant)
| JoinedStr (values : list node)
| Num
| NameConstant (value : option bool)
| NamedExpr (target value : node)
| Assign (targets : list node) (value : node)
| AugAssign (target value : node)
| AnnAssign (target annotation : node) (value : option node)
| FunctionDef (name : string) (args : node) (body decorator_list : list node)
              (returns : option node)
| AsyncFunctionDef (name : string) (args : node)
                   (body decorator_list : list node) (returns : option node)
| Arguments (args rest : list node)
| Arg (arg : string) (annotation : option node)
| ClassDef (name : string) (bases : list node)
           (keywords : list (option string * node))
           (body decorator_list : list node)
| Await (value : node)
| If (test : node) (body orelse : list node)
| IfExp (test body orelse : node)
| For (target iter : node) (body orelse : list node)
| While (test : node) (body orelse : list node)
| Try (body handlers orelse finalbody : list node)
| TryExcept (body handlers orelse : list node)
| BoolOp (values : list node)
| Pass
| Continue
| Break
| Other (children : list node).
#[local] Set Elimination Schemes.

Definition keyword_nodes (kws : list (option string * node)) : list node :=
  map (λ kw, Keyword kw.1 kw.2) kws.

(** [ast.iter_child_nodes]: the child nodes, in field order. *)
Definition iter_child_nodes (n : node) : list node :=
  match n with
  | Module body => body
  | Expr value => [value]
  | Import names | ImportFrom _ names => map Alias names
  | Print dest values => option_list dest ++ values
  | Call func args keywords => func :: args ++ keyword_nodes keywords
  | Keyword _ value => [value]
  | Attribute value _ => [value]
  | JoinedStr values => values
  | NamedExpr target value => [target; value]
  | Assign targets value => targets ++ [value]
  | AugAssign target value => [target; value]
  | AnnAssign target annotation value =>
      target :: annotation :: option_list value
  | FunctionDef _ args body decorator_list returns
  | AsyncFunctionDef _ args body decorator_list returns =>
      args :: body ++ decorator_list ++ option_list returns
  | Arguments args rest => args ++ rest
  | Arg _ annotation => option_list annotation
  | ClassDef _ bases keywords body decorator_list =>
      bases ++ keyword_nodes keywords ++ body ++ decorator_list
  | Await value => [value]
  | If test body orelse | While test body orelse => test :: body ++ orelse
  | IfExp test body orelse => [test; body; orelse]
  | For target iter body orelse => target :: iter :: body ++ orelse
  | Try body handlers orelse finalbody =>
      body ++ handlers ++ orelse ++ finalbody
  | TryExcept body handlers orelse => body ++ handlers ++ orelse
  | BoolOp values => values
  | Other children => children
  | Alias _ | Name _ | Str _ | Bytes | Constant _ | Num | NameConstant _
  | Pass | Continue | Break => []
  end.

(** The number of nodes of a tree. *)
Fixpoint size (n : node) : nat :=
  let sizes := fix sizes (l : list node) : nat :=
    match l with [] => 0 | c :: l => size c + sizes l end in
  let size_opt := λ o : option node,
    match o with Some c => size c | None => 0 end in
  let size_kws := fix size_kws (l : list (option string * node)) : nat :=
    match l with [] => 0 | kw :: l => S (size kw.2) + size_kws l end in
  S match n with
    | Module body => sizes body
    | Expr value => size value
    | Import names | ImportFrom _ names => length names
    | Print dest values => size_opt dest + sizes values
    | Call func args keywords => size func + sizes args + size_kws keywords
    | Keyword _ value => size value
    | Attribute value _ => size value
    | JoinedStr values => sizes values
    | NamedExpr target value => size target + size value
    | Assign targets value => sizes targets + size value
    | AugAssign target value => size target + size value
    | AnnAssign target annotation value =>
        size target + size annotation + size_opt value
    | FunctionDef _ args body decorator_list returns
    | AsyncFunctionDef _ args body decorator_list returns =>
        size args + sizes body + sizes decorator_list + size_opt returns
    | Arguments args rest => sizes args + sizes rest
    | Arg _ annotation => size_opt annotation
    | ClassDef _ bases keywords body decorator_list =>
        sizes bases + size_kws keywords + sizes body + sizes decorator_list
    | Await value => size value
    | If test body orelse | While test body orelse =>
        size test + sizes body + sizes orelse
    | IfExp test body orelse => size test + size body + size orelse
    | For target iter body orelse =>
        size target + size iter + sizes body + sizes orelse
    | Try body handlers orelse finalbody =>
        sizes body + sizes handlers + sizes orelse + sizes finalbody
    | TryExcept body handlers orelse =>
        sizes body + sizes handlers + sizes orelse
    | BoolOp values => sizes values
    | Other children => sizes children
    | Alias _ | Name _ | Str _ | Bytes | Constant _ | Num | NameConstant _
    | Pass | Continue | Break => 0
    end.

(** [ast.walk]: breadth first, from a queue; one unit of fuel per node
    taken from the queue. *)
Fixpoint walk_from (fuel : nat) (todo : list node) : list node :=
  match fuel, todo with
  | S fuel, n :: todo => n :: walk_from fuel (todo ++ iter_child_nodes n)
  | _, _ => []
  end.

Definition walk (n : node) : list node := walk_from (size n) [n].

(** [hasattr(n, "s")] and [n.s], read as: [n] is a string literal.  (A
    bytes literal has the field too; given one, the strftime scan fails
    inside [re] and the codecs recorders keep a bytes object that no rule
    matches.  The trees of the model carry no bytes payload.) *)
Definition literal_s (n : node) : option string :=
  match n with Str s => Some s | _ => None end.

(** [hasattr(n, "id")] and [n.id]. *)
Definition node_id (n : node) : option string :=
  match n with Name id => Some id | _ => None end.

Definition get_attribute_name (n : node) : list string :=
  foldl (λ full_name attr,
           match attr with
           | Attribute value a =>
               let full_name := a :: full_name in
               match node_id value with
               | Some id => id :: full_name
               | None => full_name
               end
           | _ => full_name
           end)
        [] (walk n).

(** ** Traversal

    [NodeVisitor.visit] calls the handler of the node's class, or
    [generic_visit] when the class has none; [generic_visit] visits the child
    nodes in field order.  Every handler of the source calls [generic_visit]
    at most once, so a visitor is given by what its handlers do before that
    call ([enter]), after it ([leave]), and by whether they make it
    ([descends]). *)
Section Traverse.

Context {S : Type}.
Context (enter leave : node → S → S) (descends : node → bool).

Fixpoint traverse (n : node) (st : S) {struct n} : S :=
  let visits := fix visits (l : list node) (st : S) : S :=
    match l with [] => st | c :: l => visits l (traverse c st) end in
  let visit_opt := λ (o : option node) (st : S),
    match o with Some c => traverse c st | None => st end in
  let visit_kws := fix visit_kws (l : list (option string * node)) (st : S)
      : S :=
    match l with
    | [] => st
    | (arg, value) :: l =>
        let st := enter (Keyword arg value) st in
        let st :=
          if descends (Keyword arg value) then traverse value st else st in
        visit_kws l (leave (Keyword arg value) st)
    end in
  let visit_aliases := fix visit_aliases (l : list alias) (st : S) : S :=
    match l with
    | [] => st
    | a :: l => visit_aliases l (leave (Alias a) (enter (Alias a) st))
    end in
  let st := enter n st in
  let st :=
    if descends n then
      match n with
      | Module body => visits body st
      | Expr value => traverse value st
      | Import names | ImportFrom _ names => visit_aliases names st
      | Print dest values => visits values (visit_opt dest st)
      | Call func args keywords =>
          visit_kws keywords (visits args (traverse func st))
      | Keyword _ value => traverse value st
      | Attribute value _ => traverse value st
      | JoinedStr values => visits values st
      | NamedExpr target value => traverse value (traverse target st)
      | Assign targets value => traverse value (visits targets st)
      | AugAssign target value => traverse value (traverse target st)
      | AnnAssign target annotation value =>
          visit_opt value (traverse annotation (traverse target st))
      | FunctionDef _ args body decorator_list returns
      | AsyncFunctionDef _ args body decorator_list returns =>
          visit_opt returns
            (visits decorator_list (visits body (traverse args st)))
      | Arguments args rest => visits rest (visits args st)
      | Arg _ annotation => visit_opt annotation st
      | ClassDef _ bases keywords body decorator_list =>
          visits decorator_list
            (visits body (visit_kws keywords (visits bases st)))
      | Await value => traverse value st
      | If test body orelse | While test body orelse =>
          visits orelse (visits body (traverse test st))
      | IfExp test body orelse =>
          traverse orelse (traverse body (traverse test st))
      | For target iter body orelse =>
          visits orelse (visits body (traverse iter (traverse target st)))
      | Try body handlers orelse finalbody =>
          visits finalbody (visits orelse (visits handlers (visits body st)))
      | TryExcept body handlers orelse =>
          visits orelse (visits handlers (visits body st))
      | BoolOp values => visits values st
      | Other children => visits children st
      | Alias _ | Name _ | Str _ | Bytes | Constant _ | Num | NameConstant _
      | Pass | Continue | Break => st
      end
    else st in
  leave n st.

(** The children in field order, each through [traverse]. *)
Definition traverse_children (n : node) (st : S) : S :=
  foldl (λ st c, traverse c st) st (iter_child_nodes n).

End Traverse.

(** The traversal that only writes down, in a log, the nodes it reaches. *)
Definition logged (descends : node → bool) (n : node) : list node :=
  traverse (λ n log, log ++ [n]) (λ _ log, log) descends n [].

(** The nodes of a tree, parents first. *)
Definition all_nodes (n : node) : list node := logged (λ _, true) n.

Section Visitor.

Context (R : rules).

(** [Config.lax_mode()]. *)
Context (lax_mode : bool).

(** *** Helpers of the handlers *)

(** [node.args[idx]] under the guard [idx >= 0 and idx < len(node.args)]. *)
Definition arg_at (args : list node) (idx : Z) : option node :=
  if bool_decide (0 ≤ idx)%Z then args !! Z.to_nat idx else None.

Definition add_codecs_error_handler (func : string) (args : list node)
    (keywords : list (option string * node)) (st : state) : state :=
  match CODECS_ERRORS_INDICES R !! func with
  | None => st
  | Some idx =>
      let st :=
        match arg_at args idx ≫= literal_s with
        | Some name =>
            set_codecs_error_handlers (codecs_error_handlers st ++ [name]) st
        | None => st
        end in
      foldl (λ st kw,
               if bool_decide (kw.1 = Some "errors")
               then match literal_s kw.2 with
                    | Some name =>
                        set_codecs_error_handlers
                          (codecs_error_handlers st ++ [name]) st
                    | None => st
                    end
               else st)
            st keywords
  end.

Definition add_codecs_encoding (func : string) (args : list node)
    (keywords : list (option string * node)) (st : state) : state :=
  match CODECS_ENCODINGS_INDICES R !! func with
  | None => st
  | Some idxs =>
      let kwargs := [Some "encoding"; Some "data_encoding";
                     Some "file_encoding"] in
      foldl (λ st idx,
               let st :=
                 match arg_at args idx ≫= literal_s with
                 | Some name =>
                     set_codecs_encodings (codecs_encodings st ++ [name]) st
                 | None => st
                 end in
               foldl (λ st kw,
                        if bool_decide (kw.1 ∈ kwargs)
                        then match literal_s kw.2 with
                             | Some name =>
                                 set_codecs_encodings
                                   (codecs_encodings st ++ [name]) st
                             | None => st
                             end
                        else st)
                     st keywords)
            st idxs
  end.

Definition check_codecs_function (func : string) (args : list node)
    (keywords : list (option string * node)) (st : state) : state :=
  add_codecs_encoding func args keywords
    (add_codecs_error_handler func args keywords st).

(** [__add_user_def_node]: a [Name] gives its [id], a node with an [arg]
    field that name. *)
Definition add_user_def_node (n : node) (st : state) : state :=
  match n with
  | Name id => add_user_def id st
  | Arg a _ => add_user_def a st
  | Keyword (Some a) _ => add_user_def a st
  | _ => st
  end.

(** [__add_name_res_assign_node] for a statement with the given targets and
    right-hand side. *)
Definition add_name_res_assign_node (targets : list node)
    (value : option node) (st : state) : state :=
  let value_name :=
    match value with
    | Some (Call (Name id) _ _) => Some id
    | Some (Call (Attribute v a) _ _) =>
        Some (dotted_name (get_attribute_name (Attribute v a)))
    | Some (Attribute v a) =>
        Some (dotted_name (get_attribute_name (Attribute v a)))
    | _ => None
    end in
  match value_name with
  | None => st
  | Some value_name =>
      foldl (λ st target,
               match target with
               | Name target_name => add_name_res target_name value_name st
               | _ => st
               end)
            st targets
  end.

(** The loop [for mod in self.__modules] of [visit_Attribute].  The body can
    append to the list it runs over, and Python's iterator then reaches the
    new entry, so the loop goes by position; the only name the body appends
    is [dotted_name(full_name)], at most once, hence the fuel. *)
Fixpoint attribute_modules_loop (fuel i : nat) (head : string)
    (rest : list string) (st : state) : state :=
  match fuel with
  | O => st
  | S fuel =>
      match modules st !! i with
      | None => st
      | Some mod' =>
          let st :=
            if bool_decide (head = mod')
            then add_module (dotted_name (head :: rest)) st
            else if endswith mod' head
                 then add_member R (dotted_name (mod' :: rest)) st
                 else st in
          attribute_modules_loop fuel (S i) head rest st
      end
  end.


(** *** The handlers, up to their call of [generic_visit] *)

Definition visit_Import (names : list alias) (st : state) : state :=
  foldl (λ st name,
           let st := add_module (alias_name name) st in
           let st := add_member R (alias_name name) st in
           match alias_asname name with
           | Some asname =>
               set_module_as_name
                 (<[asname := alias_name name]> (module_as_name st)) st
           | None => st
           end)
        st names.

Definition visit_ImportFrom (module : option string) (names : list alias)
    (st : state) : state :=
  match module with
  | None => st
  | Some module =>
      let st := add_module module st in
      foldl (λ st name,
               let st :=
                 if bool_decide (alias_name name = "*") then st
                 else
                   let st :=
                     set_import_mem_mod
                       (<[alias_name name := module]> (import_mem_mod st))
                       st in
                   let comb_name := module +:+ "." +:+ alias_name name in
                   let st := add_module comb_name st in
                   let st := add_member R comb_name st in
                   add_member R (alias_name name) st in
               match alias_asname name with
               | Some asname =>
                   set_module_as_name
                     (<[asname := module +:+ "." +:+ alias_name name]>
                        (module_as_name st)) st
               | None => st
               end)
            st names
  end.

Definition visit_Name (id : string) (st : state) : state :=
  if bool_decide (id = "long") then set_longv2 true st else st.

Definition visit_Call (func : node) (args : list node)
    (keywords : list (option string * node)) (st : state) : state :=
  let st :=
    match func with
    | Name id =>
        let st := set_function_name (Some id) st in
        let st := add_member R id st in
        let st :=
          match import_mem_mod st !! id with
          | Some m => check_codecs_function (m +:+ "." +:+ id) args keywords st
          | None =>
              match module_as_name st !! id with
              | Some name => check_codecs_function name args keywords st
              | None => st
              end
          end in
        if bool_decide (id = "print") then set_printv3 true st
        else if bool_decide (id = "array")
                || bool_decide (module_as_name st !! id = Some "array.array")
        then foldl (λ st arg,
                      match arg with
                      | Str s => add_array_typecode s st
                      | _ => st
                      end)
                   st args
        else st
    | Attribute value attr =>
        if bool_decide (attr = "format")
           && match value with Str s => contains "{}" s | _ => false end
        then set_format27 true st
        else if bool_decide (attr = "strftime")
                || bool_decide (attr = "strptime")
        then foldl (λ st arg,
                      match literal_s arg with
                      | Some s =>
                          foldl (λ st directive,
                                   add_strftime_directive directive st)
                                st (findall_directives s)
                      | None => st
                      end)
                   st args
        else st
    | _ => st
    end in
  match func with
  | Attribute _ _ =>
      let name := dotted_name (get_attribute_name func) in
      let st := set_function_name (Some name) st in
      check_codecs_function name args keywords st
  | _ => st
  end.

Definition visit_Attribute (value : node) (attr : string) (st : state)
    : state :=
  match get_attribute_name (Attribute value attr) with
  | [] => st
  | head :: rest =>
      let st :=
        attribute_modules_loop (S (length (modules st))) 0 head rest st in
      let st := add_member R (dotted_name (head :: rest)) st in
      match name_res st !! head with
      | Some res =>
          match import_mem_mod st !! res with
          | Some m => add_member R (dotted_name (m :: res :: rest)) st
          | None => add_member R (dotted_name (res :: rest)) st
          end
      | None => st
      end
  end.

Definition visit_keyword (arg : option string) (st : state) : state :=
  match function_name st with
  | None => st
  | Some fname =>
      let st := add_kwargs R fname arg st in
      let st :=
        match import_mem_mod st !! fname with
        | Some m => add_kwargs R (dotted_name [m; fname]) arg st
        | None => st
        end in
      let exp_name := split_dot fname in
      let exp_head := default "" (head exp_name) in
      let st :=
        match import_mem_mod st !! exp_head with
        | Some m => add_kwargs R (dotted_name [m; fname]) arg st
        | None => st
        end in
      match name_res st !! exp_head with
      | Some res =>
          match import_mem_mod st !! res with
          | Some m =>
              add_kwargs R (dotted_name (m :: res :: tail exp_name)) arg st
          | None => add_kwargs R (dotted_name (res :: tail exp_name)) arg st
          end
      | None => st
      end
  end.

(** The end of [__handle_FunctionDef], after [generic_visit]. *)
Definition FunctionDef_annotations (args : node) (returns : option node)
    (st : state) : state :=
  match returns with
  | Some _ => set_annotations true st
  | None =>
      match args with
      | Arguments args _ =>
          if existsb (λ a, match a with
                           | Arg _ (Some _) => true
                           | _ => false
                           end) args
          then set_annotations true st
          else st
      | _ => st
      end
  end.


(** *** Dispatch

    The handlers [visit_X] of the class, split at their call of
    [generic_visit]. *)

Definition enter (n : node) (st : state) : state :=
  match n with
  | Import names => visit_Import names st
  | ImportFrom module names => visit_ImportFrom module names st
  | Name id => visit_Name id st
  | Print _ _ => set_printv2 true st
  | Call func args keywords => visit_Call func args keywords st
  | Attribute value attr => visit_Attribute value attr st
  | Keyword arg _ => visit_keyword arg st
  | Bytes => set_bytesv3 true st
  | Constant CBytes => set_bytesv3 true st
  | JoinedStr _ => set_fstrings true st
  | Assign targets value =>
      add_name_res_assign_node targets (Some value)
        (foldl (λ st target, add_user_def_node target st) st targets)
  | AugAssign target value =>
      add_name_res_assign_node [target] (Some value)
        (add_user_def_node target st)
  | AnnAssign target _ value =>
      add_name_res_assign_node [target] value (add_user_def_node target st)
  | FunctionDef name _ _ _ _ => add_user_def name st
  | AsyncFunctionDef name _ _ _ _ =>
      add_user_def name (set_coroutines true st)
  | Await _ => set_coroutines true st
  | ClassDef name _ _ _ _ => add_user_def name st
  | NameConstant (Some _) => set_bool_const true st
  | _ => st
  end.

Definition descends (n : node) : bool :=
  match n with
  | ImportFrom _ _ | Name _ | Attribute _ _ | Keyword _ _ | Bytes
  | Constant _ | JoinedStr _ | NameConstant _ => false
  | If _ _ _ | IfExp _ _ _ | For _ _ _ _ | While _ _ _ | Try _ _ _ _
  | TryExcept _ _ _ | BoolOp _ => negb lax_mode
  | Alias _ | Pass | Num | Continue | Break => false
  | _ => true
  end.

Definition leave (n : node) (st : state) : state :=
  match n with
  | Call _ _ _ => set_function_name None st
  | AnnAssign _ _ _ => set_var_annotations true (set_annotations true st)
  | FunctionDef _ args _ _ returns
  | AsyncFunctionDef _ args _ _ returns =>
      FunctionDef_annotations args returns st
  | _ => st
  end.

Definition visit : node → state → state := traverse enter leave descends.

(** [generic_visit(node)]. *)
Definition generic_visit : node → state → state :=
  traverse_children enter leave descends.

(** The nodes that reach a handler (or the default one) during [visit], in
    the order in which they do; [visit] and [dispatched] are the same
    traversal, over the visitor's fields and over this log. *)
Definition dispatched (n : node) : list node := logged descends n.

(** *** The resolver *)

(** [if flag: mins = combine_versions(mins, vers)]. *)
Definition combine_if (flag : bool) (vers : versions) (mins : versions)
    : result versions :=
  if flag then combine_versions mins vers else Ok mins.

(** [for x in xs: if x in table: mins = combine_versions(mins, table[x])]. *)
Definition combine_table `{Countable K} (table : gmap K versions)
    (xs : list K) (mins : versions) : result versions :=
  foldl (λ r x,
           mins ← r;
           match table !! x with
           | Some vers => combine_versions mins vers
           | None => Ok mins
           end)
        (Ok mins) xs.

Definition combine_encodings (xs : list string) (mins : versions)
    : result versions :=
  foldl (λ r encoding,
           foldl (λ r encs,
                    mins ← r;
                    if bool_decide (lower encoding ∈ encs.1)
                    then combine_versions mins encs.2
                    else Ok mins)
                 r (CODECS_ENCODINGS R))
        (Ok mins) xs.

Definition minimum_versions (st : state) : result versions :=
  let mins : versions := (Some 0%Qc, Some 0%Qc) in
  let mins := if printv2 st then (Some (ver 20), mins.2) else mins in
  mins ← combine_if (printv3 st) (Some (ver 20), Some (ver 30)) mins;
  mins ← combine_if (format27 st) (Some (ver 27), Some (ver 30)) mins;
  mins ← combine_if (longv2 st) (Some (ver 20), None) mins;
  let mins := if bytesv3 st then (mins.1, Some (ver 30)) else mins in
  mins ← combine_if (fstrings st) (None, Some (ver 36)) mins;
  mins ← combine_if (bool_const st) (Some (ver 22), Some (ver 30)) mins;
  mins ← combine_if (annotations st) (None, Some (ver 30)) mins;
  mins ← combine_if (var_annotations st) (None, Some (ver 36)) mins;
  mins ← combine_if (coroutines st) (None, Some (ver 35)) mins;
  mins ← combine_table (STRFTIME_REQS R) (strftime_directives st) mins;
  mins ← combine_table (ARRAY_TYPECODE_REQS R) (array_typecodes st) mins;
  mins ← combine_table (CODECS_ERROR_HANDLERS R) (codecs_error_handlers st)
         mins;
  mins ← combine_encodings (codecs_encodings st) mins;
  mins ← combine_table (MOD_REQS R) (modules st) mins;
  mins ← combine_table (MOD_MEM_REQS R) (members st) mins;
  combine_table (KWARGS_REQS R) (kwargs st) mins.

(** One unit: a fresh visitor, one traversal, then the resolver. *)
Definition detect (tree : node) : result versions :=
  minimum_versions (visit tree init).

End Visitor.

(** ** Notions used in the statements *)

(** The fold of the merge over a list of facts, from [mins] on. *)
Definition combine_all (mins : result versions) (facts : list versions)
    : result versions :=
  foldl (λ r vers, mins ← r; combine_versions mins vers) mins facts.

(** A pair that excludes both lines. *)
Definition excludes_both (x : versions) : bool :=
  excluded x.1 && excluded x.2.

(** The merge of [x] and [y] raises the conflict. *)
Definition conflict (x y : versions) : bool :=
  contradicts x y || contradicts y x.

(** Of three pairs to merge, an outer one excludes both lines and the other
    two conflict. *)
Definition hidden_conflict (a b c : versions) : bool :=
  excludes_both a && conflict b c || excludes_both c && conflict a b.

(** How many rounds of the loop of [visit_Attribute] are left at position
    [i]: the entries from [i] on, and one more while the dotted name can
    still be appended. *)
Definition rounds_left (head : string) (rest : list string) (i : nat)
    (st : state) : nat :=
  length (modules st) - i
  + (if bool_decide (dotted_name (head :: rest) ∈ modules st) then 0 else 1).

(** The seven classes whose handler consults lax mode, [visit_If] to
    [visit_BoolOp]; the conditional, loop and exception constructs without
    such a handler ([AsyncFor] and [TryFinally] below) are not among them. *)
Definition conditional_construct (n : node) : bool :=
  match n with
  | If _ _ _ | IfExp _ _ _ | For _ _ _ _ | While _ _ _ | Try _ _ _ _
  | TryExcept _ _ _ | BoolOp _ => true
  | _ => false
  end.

(** A call [receiver.format(...)] whose receiver is a string literal with
    an empty field [{}]. *)
Definition empty_field_format (n : node) : bool :=
  match n with
  | Call (Attribute (Str s) attr) _ _ =>
      bool_decide (attr = "format") && contains "{}" s
  | _ => false
  end.

(** The observations under the tracker's control. *)
Definition tracked (st : state) : list string * list string * list string :=
  (modules st, members st, user_defs st).

(** [name] is user-defined and no user-defined name is among the module or
    member observations. *)
Definition shadowed (name : string) (st : state) : Prop :=
  name ∈ user_defs st
  ∧ ∀ ud, ud ∈ user_defs st → (ud ∉ modules st) ∧ (ud ∉ members st).

(** The fields that the shadowing tracker and the format check are about. *)
Definition core (st : state)
    : list string * list string * list string * bool :=
  (modules st, members st, user_defs st, format27 st).

(** ** Rules known from the tests

    The entries of [vermin/rules.py] that [tests/general.py] relies on
    ([test_detect_min_version], [test_member_class]): [abc] needs
    [(2.6, 3.0)], [argparse] needs [(2.7, 3.2)] and the member [abc.ABC]
    needs [(None, 3.4)]. *)
Definition test_rules : rules :=
  {| MOD_REQS :=
       {[ "abc" := (Some (ver 26), Some (ver 30));
          "argparse" := (Some (ver 27), Some (ver 32)) ]};
     MOD_MEM_REQS := {[ "abc.ABC" := (None, Some (ver 34)) ]};
     KWARGS_REQS := ∅;
     STRFTIME_REQS := ∅;
     ARRAY_TYPECODE_REQS := ∅;
     CODECS_ERROR_HANDLERS := ∅;
     CODECS_ERRORS_INDICES := ∅;
     CODECS_ENCODINGS := [];
     CODECS_ENCODINGS_INDICES := ∅ |}.

(** ** The feature flags, by name *)

Inductive flag : Type :=
| Printv2 | Printv3 | Format27 | Longv2 | Bytesv3 | Fstrings | BoolConst
| Annotations | VarAnnotations | Coroutines.

Definition flag_of (f : flag) (st : state) : bool :=
  match f with
  | Printv2 => printv2 st
  | Printv3 => printv3 st
  | Format27 => format27 st
  | Longv2 => longv2 st
  | Bytesv3 => bytesv3 st
  | Fstrings => fstrings st
  | BoolConst => bool_const st
  | Annotations => annotations st
  | VarAnnotations => var_annotations st
  | Coroutines => coroutines st
  end.

(** A call whose callee is the bare name [print]. *)
Definition print_call (n : node) : bool :=
  match n with
  | Call (Name id) _ _ => bool_decide (id = "print")
  | _ => false
  end.

(** A function definition with a return annotation or an annotated
    parameter among [args.args]. *)
Definition annotated_def (args : node) (returns : option node) : bool :=
  match returns with
  | Some _ => true
  | None =>
      match args with
      | Arguments args _ =>
          existsb (λ a, match a with Arg _ (Some _) => true | _ => false end)
                  args
      | _ => false
      end
  end.

(** The nodes on which a handler raises a flag: before its call of
    [generic_visit] ... *)
Definition raised_on_enter (f : flag) (n : node) : bool :=
  match f, n with
  | Printv2, Print _ _ => true
  | Printv3, _ => print_call n
  | Format27, _ => empty_field_format n
  | Longv2, Name id => bool_decide (id = "long")
  | Bytesv3, Bytes | Bytesv3, Constant CBytes => true
  | Fstrings, JoinedStr _ => true
  | BoolConst, NameConstant (Some _) => true
  | Coroutines, AsyncFunctionDef _ _ _ _ _ | Coroutines, Await _ => true
  | _, _ => false
  end.

(** ... and after it. *)
Definition raised_on_leave (f : flag) (n : node) : bool :=
  match f, n with
  | Annotations, AnnAssign _ _ _ | VarAnnotations, AnnAssign _ _ _ => true
  | Annotations, FunctionDef _ args _ _ returns
  | Annotations, AsyncFunctionDef _ args _ _ returns =>
      annotated_def args returns
  | _, _ => false
  end.

Definition raises (f : flag) (n : node) : bool :=
  raised_on_enter f n || raised_on_leave f n.

(** The observation lists and the user-defined names. *)
Definition collections (st : state) :=
  (modules st, members st, kwargs st, strftime_directives st,
   array_typecodes st, codecs_error_handlers st, codecs_encodings st,
   user_defs st).

(** What the directive pattern matches: a percent sign and one word
    character. *)
Definition is_directive (d : string) : bool :=
  match d with
  | String p (String c EmptyString) => Ascii.eqb p "%"%char && is_word c
  | _ => false
  end.

(** The keyword usages are distinct and each is a key of [KWARGS_REQS]. *)
Definition known_kwargs (R : rules) (st : state) : Prop :=
  NoDup (kwargs st)
  ∧ Forall (λ fn_kw, is_Some (KWARGS_REQS R !! fn_kw)) (kwargs st).

(** The expression [root.a1.a2...an]. *)
Definition attribute_chain (root : node) (attrs : list string) : node :=
  foldl Attribute root attrs.

Definition is_call (n : node) : bool :=
  match n with Call _ _ _ => true | _ => false end.

(** The loop body of [__get_attribute_name]. *)
Definition attribute_name_step (full_name : list string) (attr : node)
    : list string :=
  match attr with
  | Attribute value a =>
      let full_name := a :: full_name in
      match node_id value with
      | Some id => id :: full_name
      | None => full_name
      end
  | _ => full_name
  end.

(** The alias map after the aliases of one import statement. *)
Definition record_asname (prefix : string) (m : gmap string string)
    (name : alias) : gmap string string :=
  match alias_asname name with
  | Some asname => <[asname := prefix +:+ alias_name name]> m
  | None => m
  end.

(** The body of the loop over [node.names] in [visit_ImportFrom]. *)
Definition ImportFrom_name (R : rules) (module : string) (st : state)
    (name : alias) : state :=
  let st :=
    if bool_decide (alias_name name = "*") then st
    else
      let st :=
        set_import_mem_mod
          (<[alias_name name := module]> (import_mem_mod st)) st in
      let comb_name := module +:+ "." +:+ alias_name name in
      let st := add_module comb_name st in
      let st := add_member R comb_name st in
      add_member R (alias_name name) st in
  match alias_asname name with
  | Some asname =>
      set_module_as_name
        (<[asname := module +:+ "." +:+ alias_name name]>
           (module_as_name st)) st
  | None => st
  end.

(** The import statements, and the assignment statements. *)
Definition is_import (n : node) : bool :=
  match n with
  | Import _ | ImportFrom _ _ => true
  | _ => false
  end.

Definition is_assignment (n : node) : bool :=
  match n with
  | Assign _ _ | AugAssign _ _ | AnnAssign _ _ _ => true
  | _ => false
  end.

(** A from-import's alias that is the star and binds no name. *)
Definition star_alias (a : alias) : bool :=
  bool_decide (alias_name a = "*" ∧ alias_asname a = None).

(** The lists that are only ever appended to: every list of observations
    but the modules and the members, from which [__add_user_def] deletes. *)
Definition appended (st st' : state) : Prop :=
  kwargs st `prefix_of` kwargs st'
  ∧ strftime_directives st `prefix_of` strftime_directives st'
  ∧ array_typecodes st `prefix_of` array_typecodes st'
  ∧ codecs_error_handlers st `prefix_of` codecs_error_handlers st'
  ∧ codecs_encodings st `prefix_of` codecs_encodings st'.

(** The string literals among the values of the keywords that [test]
    selects, in the order of the keywords. *)
Definition keyword_literals (test : option string → bool)
    (keywords : list (option string * node)) : list string :=
  flat_map (λ kw, if test kw.1 then option_list (literal_s kw.2) else [])
           keywords.

(** The string literal at position [idx] of the arguments, if there is
    one. *)
Definition positional_literal (args : list node) (idx : Z) : list string :=
  option_list (arg_at args idx ≫= literal_s).

(** Not a bytes literal or a constant, the nodes of which the model leaves
    the value out. *)
Definition no_bytes (n : node) : bool :=
  match n with
  | Bytes | Constant _ => false
  | _ => true
  end.

(** A knowledge base with one keyword rule and two codecs functions, for
    the examples. *)
Definition example_rules : rules :=
  {| MOD_REQS := ∅;
     MOD_MEM_REQS := ∅;
     KWARGS_REQS := {[ ("open", Some "dir_fd") := (None, Some (ver 33)) ]};
     STRFTIME_REQS := ∅;
     ARRAY_TYPECODE_REQS := ∅;
     CODECS_ERROR_HANDLERS := ∅;
     CODECS_ERRORS_INDICES := {[ "codecs.encode" := 2%Z ]};
     CODECS_ENCODINGS := [];
     CODECS_ENCODINGS_INDICES := {[ "codecs.open" := [2%Z; 3%Z] ]} |}.

(** No observation on record has an entry in the rule tables. *)
Definition unmatched (R : rules) (st : state) : Prop :=
  Forall (λ d, STRFTIME_REQS R !! d = None) (strftime_directives st)
  ∧ Forall (λ t, ARRAY_TYPECODE_REQS R !! t = None) (array_typecodes st)
  ∧ Forall (λ h, CODECS_ERROR_HANDLERS R !! h = None)
           (codecs_error_handlers st)
  ∧ Forall (λ e, Forall (λ encs : list string * versions, lower e ∉ encs.1)
                        (CODECS_ENCODINGS R))
           (codecs_encodings st)
  ∧ Forall (λ m, MOD_REQS R !! m = None) (modules st)
  ∧ Forall (λ m, MOD_MEM_REQS R !! m = None) (members st)
  ∧ Forall (λ k, KWARGS_REQS R !! k = None) (kwargs st).

(** The definitions of functions and classes. *)
Definition is_definition (n : node) : bool :=
  match n with
  | FunctionDef _ _ _ _ _ | AsyncFunctionDef _ _ _ _ _
  | ClassDef _ _ _ _ _ => true
  | _ => false
  end.

(** A node at which no function name is set or cleared and no name becomes
    user-defined. *)
Definition inert (n : node) : bool :=
  negb (is_call n || is_assignment n || is_definition n).

(** The handlers that are written without a call of [generic_visit] on
    nodes that have child nodes: [visit_ImportFrom], [visit_Attribute],
    [visit_keyword] and [visit_JoinedStr]. *)
Definition keeps_to_itself (n : node) : bool :=
  match n with
  | ImportFrom _ _ | Attribute _ _ | Keyword _ _ | JoinedStr _ => true
  | _ => false
  end.

(** A position in a tree is the list of the child indices that lead to it
    from the root; [node_at p n] is the node of [n] at position [p]. *)
Fixpoint node_at (p : list nat) (n : node) : option node :=
  match p with
  | [] => Some n
  | i :: p => iter_child_nodes n !! i ≫= node_at p
  end.

(** [p] is a position of [n], and no node strictly above it is one that
    [keeps_to_itself]. *)
Fixpoint reached (p : list nat) (n : node) : bool :=
  match p with
  | [] => true
  | i :: p =>
      negb (keeps_to_itself n)
      && match iter_child_nodes n !! i with
         | Some c => reached p c
         | None => false
         end
  end.

(** [ps] lists, once each, the positions of [n] that are [reached], and
    the dispatch log of [n] with lax mode off holds, entry by entry, the
    nodes at these positions. *)
Definition tree_positions (n : node) (ps : list (list nat)) : Prop :=
  NoDup ps
  ∧ (∀ p, p ∈ ps ↔ reached p n = true)
  ∧ Forall2 (λ m p, node_at p n = Some m) (dispatched false n) ps.

(** The same for the children [l] of a node, numbered from [k] on. *)
Definition forest_positions (k : nat) (l : list node)
    (ps : list (list nat)) : Prop :=
  NoDup ps
  ∧ (∀ p, p ∈ ps ↔ ∃ i p' c, p = (k + i) :: p' ∧ l !! i = Some c
                              ∧ reached p' c = true)
  ∧ Forall2 (λ m p, ∃ i p' c, p = (k + i) :: p' ∧ l !! i = Some c
                               ∧ node_at p' c = Some m)
            (flat_map (dispatched false) l) ps.

(** Two constructs of Python's [ast] for which the class has no handler,
    so that they are [Other] nodes of the model, with their child nodes in
    field order: the asynchronous loop [async for] and Python 2's
    [try ... finally]. *)
Definition AsyncFor (target iter : node) (body orelse : list node) : node :=
  Other (target :: iter :: body ++ orelse).

Definition TryFinally (body finalbody : list node) : node :=
  Other (body ++ finalbody).

(** A string of ASCII characters only.  On such text the word class of
    Python 3's [re] is that of [is_word]. *)
Fixpoint ascii_only (s : string) : bool :=
  match s with
  | EmptyString => true
  | String c s' => (Ascii.N_of_ascii c <? 128)%N && ascii_only s'
  end.

(** Not a string literal with a character outside ASCII. *)
Definition ascii_literal (n : node) : bool :=
  match n with
  | Str s => ascii_only s
  | _ => true
  end.

(* ================================================================== *)
(** * Properties *)

(** ** The resolver's merge *)

Section Merge.

Ltac qc_order :=
  try reflexivity;
  try (apply Qcle_antisym);
  unfold Qclt, Qcle in *; try (exfalso; lra); try lra.

Lemma py_max_comm (x y : Qc) : py_max x y = py_max y x.
Proof. unfold py_max. repeat case_decide; qc_order. Qed.

Lemma py_max_assoc (x y z : Qc) :
  py_max (py_max x y) z = py_max x (py_max y z).
Proof. unfold py_max. repeat case_decide; qc_order. Qed.

Lemma py_max_nonzero (x y : Qc) :
  x ≠ 0%Qc → y ≠ 0%Qc → py_max x y ≠ 0%Qc.
Proof. unfold py_max. by case_decide. Qed.

Lemma merge_slot_comm (x y : slot) : merge_slot x y = merge_slot y x.
Proof.
  destruct x as [a|], y as [b|]; unfold merge_slot; simpl;
    repeat case_bool_decide; subst; try reflexivity.
  f_equal. apply py_max_comm.
Qed.

Lemma merge_slot_assoc (x y z : slot) :
  merge_slot (merge_slot x y) z = merge_slot x (merge_slot y z).
Proof.
  destruct x as [a|], y as [b|], z as [c|]; unfold merge_slot; simpl;
    repeat (case_bool_decide; simpl); subst; try reflexivity; try congruence.
  all: try (exfalso; by eapply (py_max_nonzero a b)).
  all: try (exfalso; by eapply (py_max_nonzero b c)).
  f_equal. apply py_max_assoc.
Qed.

Lemma excluded_merge_slot (x y : slot) :
  excluded (merge_slot x y) = excluded x || excluded y.
Proof.
  destruct x as [a|], y as [b|]; unfold merge_slot; simpl;
    repeat case_bool_decide; reflexivity.
Qed.

Lemma contradicts_sym (a b : versions) :
  contradicts a b || contradicts b a = contradicts b a || contradicts a b.
Proof. apply orb_comm. Qed.

(** The expectations of [test_combine_versions]. *)
Lemma combine_versions_tests :
  combine_versions (Some (ver 20), Some (ver 30)) (Some (ver 20), Some (ver 31))
    = Ok (Some (ver 20), Some (ver 31))
  ∧ combine_versions (Some (ver 21), Some (ver 30)) (Some (ver 20), Some (ver 30))
    = Ok (Some (ver 21), Some (ver 30))
  ∧ combine_versions (Some (ver 20), Some (ver 30)) (None, Some (ver 30))
    = Ok (None, Some (ver 30))
  ∧ combine_versions (Some (ver 20), None) (Some (ver 20), Some (ver 30))
    = Ok (Some (ver 20), None)
  ∧ combine_versions (Some (ver 20), Some (ver 30)) (None, None)
    = Ok (None, None)
  ∧ combine_versions (None, None) (Some (ver 20), Some (ver 30))
    = Ok (None, None)
  ∧ combine_versions (Some 0%Qc, Some (ver 30)) (Some 0%Qc, Some (ver 30))
    = Ok (Some 0%Qc, Some (ver 30))
  ∧ combine_versions (Some 0%Qc, Some (ver 30)) (Some (ver 20), Some (ver 30))
    = Ok (Some (ver 20), Some (ver 30))
  ∧ combine_versions (Some (ver 20), Some 0%Qc) (Some (ver 20), Some (ver 30))
    = Ok (Some (ver 20), Some (ver 30)).
Proof. repeat split; vm_compute; reflexivity. Qed.

End Merge.

Lemma combine_versions_comm (a b : versions) :
  combine_versions a b = combine_versions b a.
Proof.
  unfold combine_versions. rewrite contradicts_sym.
  by rewrite (merge_slot_comm a.1), (merge_slot_comm a.2).
Qed.

Lemma combine_versions_assoc_iff (a b c : versions) :
  (ab ← combine_versions a b; combine_versions ab c)
  = (bc ← combine_versions b c; combine_versions a bc)
  ↔ hidden_conflict a b c = false.
Proof.
  destruct a as [a2 a3], b as [b2 b3], c as [c2 c3].
  unfold hidden_conflict, conflict, excludes_both, combine_versions,
    contradicts, mbind, result_bind; simpl.
  destruct (excluded a2) eqn:Ea2, (excluded a3) eqn:Ea3,
    (excluded b2) eqn:Eb2, (excluded b3) eqn:Eb3; simpl;
    rewrite ?excluded_merge_slot, ?Ea2, ?Ea3, ?Eb2, ?Eb3; simpl;
    destruct (excluded c2) eqn:Ec2, (excluded c3) eqn:Ec3; simpl;
    rewrite ?excluded_merge_slot, ?Ea2, ?Ea3, ?Eb2, ?Eb3, ?Ec2, ?Ec3;
    simpl;
    (split; intros H; try discriminate H; try reflexivity;
     by rewrite !merge_slot_assoc).
Qed.

Lemma combine_versions_absorbs (m x : versions) :
  excludes_both m = true → combine_versions m x = Ok m.
Proof.
  destruct m as [[?|] [?|]], x as [x2 x3]; try discriminate. intros _.
  unfold combine_versions, contradicts. simpl.
  rewrite !andb_false_r. simpl. unfold merge_slot. simpl.
  by destruct (is_zero x2), (is_zero x3).
Qed.

Lemma combine_versions_swap (m x y : versions) :
  excludes_both x = false → excludes_both y = false →
  (mx ← combine_versions m x; combine_versions mx y)
  = (my ← combine_versions m y; combine_versions my x).
Proof.
  intros Hx Hy. destruct (excludes_both m) eqn:Hm.
  - rewrite !combine_versions_absorbs by done. simpl.
    by rewrite !combine_versions_absorbs.
  - rewrite (proj2 (combine_versions_assoc_iff m x y)),
      (proj2 (combine_versions_assoc_iff m y x)).
    + by rewrite (combine_versions_comm x y).
    + unfold hidden_conflict. by rewrite Hm, Hx.
    + unfold hidden_conflict. by rewrite Hm, Hy.
Qed.

Lemma combine_all_permutation (mins : result versions)
    (facts facts' : list versions) :
  Forall (λ x, excludes_both x = false) facts →
  facts ≡ₚ facts' → combine_all mins facts = combine_all mins facts'.
Proof.
  intros Hfacts Hperm. revert mins.
  induction Hperm as [|x l l' _ IH|x y l|l l' l'' Hperm1 IH1 _ IH2];
    intros mins.
  - done.
  - apply IH. by apply Forall_cons_1 in Hfacts as [_ ?].
  - unfold combine_all. simpl. f_equal.
    destruct mins as [m|]; [|done]. simpl.
    apply Forall_cons_1 in Hfacts as [Hy [Hx _]%Forall_cons_1].
    by apply combine_versions_swap.
  - rewrite IH1 by done. apply IH2. by rewrite <- Hperm1.
Qed.




(** C2: a pair that excludes 3.x and one that excludes 2.x cannot be merged:
    [combine_versions] raises [InvalidVersionException] in either argument
    order, in particular on [(2.0, None)] and [(None, 3.0)]. *)
Theorem combine_versions_conflict (v2 v3 : Qc) :
  combine_versions (Some v2, None) (None, Some v3) = InvalidVersionException
  ∧ combine_versions (None, Some v3) (Some v2, None) = InvalidVersionException
  ∧ combine_versions (Some (ver 20), None) (None, Some (ver 30))
    = InvalidVersionException
  ∧ combine_versions (None, Some (ver 30)) (Some (ver 20), None)
    = InvalidVersionException.
Proof. repeat split. Qed.

(** ** The traversal *)

Section TraverseFacts.

Context {S : Type}.
Context (enter leave : node → S → S) (descends : node → bool).

#[local] Abbreviation traverse := (traverse enter leave descends).

Lemma traverse_list (l : list node) (st : S) :
  (fix visits (l : list node) (st : S) : S :=
     match l with [] => st | c :: l => visits l (traverse c st) end) l st
  = foldl (λ st c, traverse c st) st l.
Proof. revert st. induction l as [|c l IH]; intros st; simpl; [done|apply IH]. Qed.

Lemma traverse_keywords (l : list (option string * node)) (st : S) :
  (fix visit_kws (l : list (option string * node)) (st : S) : S :=
     match l with
     | [] => st
     | (arg, value) :: l =>
         let st := enter (Keyword arg value) st in
         let st :=
           if descends (Keyword arg value) then traverse value st else st in
         visit_kws l (leave (Keyword arg value) st)
     end) l st
  = foldl (λ st c, traverse c st) st (keyword_nodes l).
Proof.
  revert st. induction l as [|[arg value] l IH]; intros st; [done|].
  simpl. rewrite IH. reflexivity.
Qed.

Lemma traverse_aliases (l : list alias) (st : S) :
  (fix visit_aliases (l : list alias) (st : S) : S :=
     match l with
     | [] => st
     | a :: l => visit_aliases l (leave (Alias a) (enter (Alias a) st))
     end) l st
  = foldl (λ st c, traverse c st) st (map Alias l).
Proof.
  revert st. induction l as [|a l IH]; intros st; [done|].
  simpl. rewrite IH. by destruct (descends (Alias a)).
Qed.

Lemma traverse_unfold (n : node) (st : S) :
  traverse n st
  = leave n (if descends n
             then traverse_children enter leave descends n (enter n st)
             else enter n st).
Proof.
  unfold traverse_children.
  destruct n; simpl; destruct (descends _); try reflexivity;
    repeat rewrite traverse_list; repeat rewrite traverse_keywords;
    repeat rewrite traverse_aliases; repeat rewrite foldl_app; simpl;
    try reflexivity.
  all: by repeat case_match.
Qed.

End TraverseFacts.

(** ** Induction on trees *)

Lemma size_list (l : list node) :
  (fix sizes (l : list node) : nat :=
     match l with [] => 0 | c :: l => size c + sizes l end) l
  = sum_list_with size l.
Proof. induction l as [|c l IH]; simpl; [done|by rewrite IH]. Qed.

Lemma size_keywords (l : list (option string * node)) :
  (fix size_kws (l : list (option string * node)) : nat :=
     match l with [] => 0 | kw :: l => S (size kw.2) + size_kws l end) l
  = sum_list_with size (keyword_nodes l).
Proof.
  induction l as [|kw l IH]; [done|].
  simpl. f_equal. f_equal. exact IH.
Qed.

Lemma size_aliases (l : list alias) :
  length l = sum_list_with size (map Alias l).
Proof. induction l as [|a l IH]; simpl; [done|by rewrite IH]. Qed.

Lemma size_unfold (n : node) :
  size n = S (sum_list_with size (iter_child_nodes n)).
Proof.
  destruct n; simpl;
    try (set (sizes := fix sizes (l : list node) : nat := _) in *;
         assert (Hl : ∀ l, sizes l = sum_list_with size l)
           by apply size_list;
         clearbody sizes);
    try (set (size_kws :=
                fix size_kws (l : list (option string * node)) : nat := _)
           in *;
         assert (Hk : ∀ l, size_kws l = sum_list_with size (keyword_nodes l))
           by apply size_keywords;
         clearbody size_kws);
    rewrite ?Hl, ?Hk, ?sum_list_with_app, <-?size_aliases; simpl;
    repeat case_match; simpl; lia.
Qed.

Lemma size_child (n c : node) : c ∈ iter_child_nodes n → size c < size n.
Proof.
  intros Hc. rewrite (size_unfold n).
  apply (sum_list_with_in _ size) in Hc. lia.
Qed.

(** A property holds of every tree as soon as it holds of a node whenever it
    holds of the node's children. *)
Lemma node_children_ind (P : node → Prop) :
  (∀ n, (∀ c, c ∈ iter_child_nodes n → P c) → P n) → ∀ n, P n.
Proof.
  intros step n. remember (size n) as k eqn:Hk. revert n Hk.
  induction k as [k IH] using lt_wf_ind. intros n ->.
  apply step. intros c Hc. apply (IH (size c)); [by apply size_child|done].
Qed.

(** What every handler keeps, the whole traversal keeps. *)
Lemma traverse_preserves {S : Type} (enter leave : node → S → S)
    (descends : node → bool) (P : S → Prop) :
  (∀ n st, P st → P (enter n st)) →
  (∀ n st, P st → P (leave n st)) →
  ∀ n st, P st → P (traverse enter leave descends n st).
Proof.
  intros Henter Hleave n.
  induction n as [n IH] using node_children_ind. intros st Hst.
  rewrite traverse_unfold. apply Hleave.
  destruct (descends n); [|by apply Henter].
  unfold traverse_children.
  assert (Hfold : ∀ l st, (∀ c, c ∈ l → c ∈ iter_child_nodes n) →
    P st → P (foldl (λ st c, traverse enter leave descends c st) st l)).
  { induction l as [|c l IHl]; intros st' Hl Hst'; simpl; [done|].
    apply IHl; [intros; apply Hl; by right|].
    apply IH; [apply Hl; by left|done]. }
  apply Hfold; [done|by apply Henter].
Qed.

(** ** The log of a traversal *)

Section Logged.

Context (d : node → bool).

Lemma logged_unfold (n : node) (log : list node) :
  traverse (λ n log, log ++ [n]) (λ _ log, log) d n log = log ++ logged d n.
Proof.
  revert log. induction n as [n IH] using node_children_ind. intros log.
  unfold logged. rewrite !traverse_unfold.
  destruct (d n); [|done].
  unfold traverse_children. simpl.
  assert (Hfold : ∀ l log1 log2, (∀ c, c ∈ l → c ∈ iter_child_nodes n) →
    foldl (λ st c, traverse (λ n log, log ++ [n]) (λ _ log, log) d c st)
          (log1 ++ log2) l
    = log1 ++ foldl (λ st c, traverse (λ n log, log ++ [n]) (λ _ log, log)
                               d c st) log2 l).
  { induction l as [|c l IHl]; intros log1 log2 Hl; simpl; [done|].
    assert (Hc : c ∈ iter_child_nodes n) by (apply Hl; left).
    rewrite (IH c Hc (log1 ++ log2)), (IH c Hc log2).
    rewrite <-(assoc_L (++)). apply IHl. intros; apply Hl; by right. }
  by rewrite <-Hfold.
Qed.

Lemma logged_children (n : node) :
  logged d n
  = n :: (if d n then flat_map (logged d) (iter_child_nodes n) else []).
Proof.
  unfold logged at 1. rewrite traverse_unfold.
  destruct (d n); [|done].
  unfold traverse_children. simpl.
  assert (Hfold : ∀ l log,
    foldl (λ st c, traverse (λ n log, log ++ [n]) (λ _ log, log) d c st)
          log l
    = log ++ flat_map (logged d) l).
  { induction l as [|c l IH]; intros log; simpl; [by rewrite app_nil_r|].
    rewrite logged_unfold, IH. by rewrite <-(assoc_L (++)). }
  by rewrite Hfold.
Qed.

End Logged.

(** Whatever the handlers decide, the log is the list of all nodes with
    some of them left out: no node is reached twice. *)
Lemma logged_sublist (d : node → bool) (n : node) :
  logged d n `sublist_of` all_nodes n.
Proof.
  induction n as [n IH] using node_children_ind.
  unfold all_nodes. rewrite (logged_children d n), (logged_children _ n).
  apply sublist_skip. destruct (d n); [|apply sublist_nil_l].
  induction (iter_child_nodes n) as [|c l IHl]; simpl; [done|].
  apply sublist_app; [apply IH; by left|].
  apply IHl. intros c' Hc'. apply IH. by right.
Qed.


(** ** The visitor *)

Section VisitorFacts.

Context (R : rules) (lax_mode : bool).

Lemma visit_unfold (n : node) (st : state) :
  visit R lax_mode n st
  = leave n (if descends lax_mode n
             then generic_visit R lax_mode n (enter R n st)
             else enter R n st).
Proof. apply traverse_unfold. Qed.

Lemma dispatched_children (n : node) :
  dispatched lax_mode n
  = n :: (if descends lax_mode n
          then flat_map (dispatched lax_mode) (iter_child_nodes n)
          else []).
Proof. apply logged_children. Qed.

End VisitorFacts.

(** C10: a from-import whose module field is absent records nothing: the
    visitor's fields are as before the node, whatever they were, and none of
    the node's children is dispatched. *)
Theorem visit_ImportFrom_relative (R : rules) (lax_mode : bool)
    (names : list alias) (st : state) :
  visit R lax_mode (ImportFrom None names) st = st
  ∧ dispatched lax_mode (ImportFrom None names) = [ImportFrom None names].
Proof. split; reflexivity. Qed.

(** The seven handlers of lax mode: with lax mode off the node is traversed
    like any node without a handler; with lax mode on nothing below it is
    dispatched and the visitor's fields stay as they were. *)
Lemma lax_mode_skips_conditionals (R : rules) (n : node) (st : state) :
  conditional_construct n = true →
  visit R false n st = generic_visit R false n st
  ∧ visit R true n st = st
  ∧ dispatched true n = [n].
Proof.
  intros Hn. rewrite !visit_unfold, dispatched_children.
  destruct n; try discriminate Hn; done.
Qed.

(** C8, with lax mode on, at [async for x in xs: s = b'a'] inside an
    [async def] and at Python 2's [try: t = long finally: print 'done']:
    the class has [visit_For], [visit_Try] and [visit_TryExcept] but no
    handler for [AsyncFor] and [TryFinally], so these two are traversed by
    the default handler, their bodies included, whatever the mode.  From
    the loop the byte-string flag and the user definition [s] are
    recorded, from the exception construct the flags of [long] and of the
    print statement and the user definition [t]; the same bodies under
    [for] and under [try] with a handler clause leave nothing. *)
Theorem lax_mode_misses_constructs (R : rules) (st : state) :
  (∀ target iter body orelse,
     visit R true (AsyncFor target iter body orelse) st
     = foldl (λ st c, visit R true c st) st (target :: iter :: body ++ orelse)
     ∧ dispatched true (AsyncFor target iter body orelse)
       = AsyncFor target iter body orelse
         :: flat_map (dispatched true) (target :: iter :: body ++ orelse))
  ∧ (∀ body finalbody,
       visit R true (TryFinally body finalbody) st
       = foldl (λ st c, visit R true c st) st (body ++ finalbody)
       ∧ dispatched true (TryFinally body finalbody)
         = TryFinally body finalbody
           :: flat_map (dispatched true) (body ++ finalbody))
  ∧ (let unit loop :=
       Module [AsyncFunctionDef "f" (Arguments [] [])
                 [loop (Name "x") (Name "xs") [Assign [Name "s"] Bytes] []]
                 [] None] in
     bytesv3 (visit R true (unit AsyncFor) init) = true
     ∧ user_defs (visit R true (unit AsyncFor) init) = ["f"; "s"]
     ∧ bytesv3 (visit R true (unit For) init) = false
     ∧ user_defs (visit R true (unit For) init) = ["f"])
  ∧ (let body := [Assign [Name "t"] (Name "long")] in
     let finalbody := [Print None [Str "done"]] in
     longv2 (visit R true (Module [TryFinally body finalbody]) init) = true
     ∧ printv2 (visit R true (Module [TryFinally body finalbody]) init)
       = true
     ∧ user_defs (visit R true (Module [TryFinally body finalbody]) init)
       = ["t"]
     ∧ visit R true (Module [Try body [] [] finalbody]) init = init
     ∧ visit R true (Module [TryExcept body [Pass] finalbody]) init = init).
Proof.
  split; [|split].
  - intros target iter body orelse.
    by rewrite visit_unfold, dispatched_children.
  - intros body finalbody. by rewrite visit_unfold, dispatched_children.
  - repeat split; vm_compute; reflexivity.
Qed.

(** ** The resolver on the flags *)

(** C5, at [s = b'hello']: the byte-string flag is set and the resolver
    answers [[0, 3.0]]: the 2.x slot keeps "no constraint" instead of the
    excluded marker.  With [long] in the same unit the assignment to the
    3.x slot even replaces the marker that [long] had put there. *)
Theorem bytes_flag_keeps_2x (R : rules) (lax_mode : bool) :
  bytesv3 (visit R lax_mode (Module [Assign [Name "s"] Bytes]) init) = true
  ∧ detect R lax_mode (Module [Assign [Name "s"] Bytes])
    = Ok (Some 0%Qc, Some (ver 30))
  ∧ detect R lax_mode (Module [Assign [Name "s"] (Constant CBytes)])
    = Ok (Some 0%Qc, Some (ver 30))
  ∧ detect R lax_mode (Module [Assign [Name "s"] Bytes; Expr (Name "long")])
    = Ok (Some (ver 20), Some (ver 30)).
Proof. repeat split; vm_compute; reflexivity. Qed.

(** C7, at the unit [(b := a)]: a named expression has no handler and no
    flag of its own; it is traversed like any other node and the resolver
    answers [[0, 0]], not a 3.8-only requirement.  The unit of
    [test_named_expressions], [a = 1] then [if (b := a) == 1: print(b)],
    resolves to [[2.0, 3.0]], which is what [print(b)] alone asks for. *)
Theorem named_expression_unnoticed (R : rules) (lax_mode : bool)
    (target value : node) (st : state) :
  visit R lax_mode (NamedExpr target value) st
  = visit R lax_mode value (visit R lax_mode target st)
  ∧ visit R lax_mode (Module [Expr (NamedExpr (Name "b") (Name "a"))]) init
    = init
  ∧ detect R lax_mode (Module [Expr (NamedExpr (Name "b") (Name "a"))])
    = Ok (Some 0%Qc, Some 0%Qc)
  ∧ detect test_rules false
      (Module [Assign [Name "a"] Num;
               If (Other [NamedExpr (Name "b") (Name "a"); Num])
                  [Expr (Call (Name "print") [Name "b"] [])] []])
    = Ok (Some (ver 20), Some (ver 30)).
Proof. repeat split; vm_compute; reflexivity. Qed.

(** ** What the recording operations leave alone *)

Lemma foldl_preserves {A B : Type} (P : A → Prop) (f : A → B → A)
    (l : list B) (a : A) :
  (∀ a b, P a → P (f a b)) → P a → P (foldl f a l).
Proof.
  intros Hf. revert a. induction l as [|b l IH]; intros a Ha; simpl; [done|].
  apply IH, Hf, Ha.
Qed.

Section Frames.

Context (R : rules).

Ltac frame :=
  repeat first
    [ reflexivity
    | assumption
    | progress (intros; simpl)
    | case_bool_decide
    | case_match
    | apply (foldl_preserves (λ st', core st' = _)) ].

Lemma core_add_kwargs fn kw st : core (add_kwargs R fn kw st) = core st.
Proof. unfold add_kwargs. frame. Qed.

Lemma core_add_strftime_directive g st :
  core (add_strftime_directive g st) = core st.
Proof. reflexivity. Qed.

Lemma core_add_array_typecode t st : core (add_array_typecode t st) = core st.
Proof. unfold add_array_typecode. frame. Qed.

Lemma core_add_name_res s t st : core (add_name_res s t st) = core st.
Proof. reflexivity. Qed.

Lemma core_check_codecs_function func args keywords st :
  core (check_codecs_function R func args keywords st) = core st.
Proof.
  unfold check_codecs_function, add_codecs_encoding, add_codecs_error_handler.
  frame.
Qed.

Lemma core_visit_keyword arg st : core (visit_keyword R arg st) = core st.
Proof.
  unfold visit_keyword. repeat case_match; rewrite ?core_add_kwargs; done.
Qed.

Lemma core_add_name_res_assign_node targets value st :
  core (add_name_res_assign_node targets value st) = core st.
Proof. unfold add_name_res_assign_node. frame. Qed.

End Frames.

Section Format27.

Context (R : rules) (lax_mode : bool).

Lemma format27_core st st' : core st' = core st → format27 st' = format27 st.
Proof. unfold core. congruence. Qed.

Lemma format27_add_module m st : format27 (add_module m st) = format27 st.
Proof. unfold add_module. by repeat case_bool_decide. Qed.

Lemma format27_add_member m st : format27 (add_member R m st) = format27 st.
Proof. unfold add_member. by repeat case_bool_decide. Qed.

Lemma format27_add_user_def name st :
  format27 (add_user_def name st) = format27 st.
Proof.
  unfold add_user_def.
  apply (foldl_preserves (λ st', format27 st' = format27 st));
    [intros ?? <-; done|by case_bool_decide].
Qed.

Lemma format27_add_user_def_node n st :
  format27 (add_user_def_node n st) = format27 st.
Proof.
  unfold add_user_def_node.
  repeat case_match; rewrite ?format27_add_user_def; done.
Qed.

Lemma format27_attribute_modules_loop fuel i head rest st :
  format27 (attribute_modules_loop R fuel i head rest st) = format27 st.
Proof.
  revert i st. induction fuel as [|fuel IH]; intros i st; simpl; [done|].
  case_match; [|done]. rewrite IH.
  repeat case_match; rewrite ?format27_add_module, ?format27_add_member; done.
Qed.

Lemma format27_visit_Attribute value attr st :
  format27 (visit_Attribute R value attr st) = format27 st.
Proof.
  unfold visit_Attribute.
  repeat case_match;
    rewrite ?format27_add_member, ?format27_attribute_modules_loop; done.
Qed.

Lemma format27_visit_Import names st :
  format27 (visit_Import R names st) = format27 st.
Proof.
  unfold visit_Import.
  apply (foldl_preserves (λ st', format27 st' = format27 st)); [|done].
  intros st' name <-. case_match; simpl;
    by rewrite format27_add_member, format27_add_module.
Qed.

Lemma format27_visit_ImportFrom module names st :
  format27 (visit_ImportFrom R module names st) = format27 st.
Proof.
  unfold visit_ImportFrom. case_match; [|done].
  apply (foldl_preserves (λ st', format27 st' = format27 st));
    [|by rewrite format27_add_module].
  intros st' name <-. repeat case_match; simpl; case_bool_decide; simpl;
    rewrite ?format27_add_member, ?format27_add_module; done.
Qed.

Lemma format27_foldl {B : Type} (f : state → B → state) (l : list B) st :
  (∀ st b, format27 (f st b) = format27 st) →
  format27 (foldl f st l) = format27 st.
Proof.
  intros Hf. apply (foldl_preserves (λ st', format27 st' = format27 st));
    [|done].
  intros st' b <-. apply Hf.
Qed.

Lemma format27_check_codecs_function func args keywords st :
  format27 (check_codecs_function R func args keywords st) = format27 st.
Proof. apply format27_core, core_check_codecs_function. Qed.

Lemma format27_add_array_typecode t st :
  format27 (add_array_typecode t st) = format27 st.
Proof. apply format27_core, core_add_array_typecode. Qed.

Lemma format27_visit_Call func args keywords st :
  format27 (visit_Call R func args keywords st)
  = format27 st || empty_field_format (Call func args keywords).
Proof.
  unfold visit_Call, empty_field_format.
  destruct func; rewrite ?orb_false_r; try done.
  - (* a bare name *)
    repeat case_match; simpl;
      rewrite ?format27_foldl
        by (intros; case_match; rewrite ?format27_add_array_typecode; done);
      rewrite ?format27_check_codecs_function, ?format27_add_member; done.
  - (* a dotted callee *)
    rewrite format27_check_codecs_function. simpl.
    assert (Hdirectives : ∀ st,
      format27
        (foldl (λ st arg,
                  match literal_s arg with
                  | Some s =>
                      foldl (λ st directive,
                               add_strftime_directive directive st)
                            st (findall_directives s)
                  | None => st
                  end) st args) = format27 st).
    { intros st'. apply format27_foldl. intros st'' arg.
      case_match; [|done]. by apply format27_foldl. }
    destruct (bool_decide (attr = "format")); simpl.
    + destruct func; simpl; rewrite ?orb_false_r;
        repeat case_match; simpl; rewrite ?orb_true_r, ?orb_false_r,
          ?Hdirectives; done.
    + case_match; rewrite ?Hdirectives;
        destruct func; by rewrite ?orb_false_r.
Qed.

Lemma format27_enter n st :
  format27 (enter R n st) = format27 st || empty_field_format n.
Proof.
  destruct n; simpl; rewrite ?orb_false_r; try done.
  - apply format27_visit_Import.
  - apply format27_visit_ImportFrom.
  - unfold visit_Name. by case_bool_decide.
  - apply format27_visit_Call.
  - by rewrite (format27_core _ _ (core_visit_keyword _ _ _)).
  - apply format27_visit_Attribute.
  - by case_match.
  - by case_match.
  - rewrite (format27_core _ _ (core_add_name_res_assign_node _ _ _)).
    apply (foldl_preserves (λ st', format27 st' = format27 st)); [|done].
    intros st' t <-. apply format27_add_user_def_node.
  - rewrite (format27_core _ _ (core_add_name_res_assign_node _ _ _)).
    apply format27_add_user_def_node.
  - rewrite (format27_core _ _ (core_add_name_res_assign_node _ _ _)).
    apply format27_add_user_def_node.
  - apply format27_add_user_def.
  - by rewrite format27_add_user_def.
  - apply format27_add_user_def.
Qed.

Lemma format27_leave n st : format27 (leave n st) = format27 st.
Proof.
  destruct n; simpl; try done;
    unfold FunctionDef_annotations; by repeat case_match.
Qed.

End Format27.

(** ** Flags and the dispatched nodes *)

Section Flags.

Context (R : rules) (lax_mode : bool).

(** A flag that the handlers only ever raise, each on its own kind of node,
    is raised by a traversal exactly when such a node is dispatched. *)
Lemma visit_flag (flag : state → bool) (trigger : node → bool) :
  (∀ n st, flag (enter R n st) = flag st || trigger n) →
  (∀ n st, flag (leave n st) = flag st) →
  ∀ n st,
    flag (visit R lax_mode n st)
    = flag st || existsb trigger (dispatched lax_mode n).
Proof.
  intros Henter Hleave n.
  induction n as [n IH] using node_children_ind. intros st.
  rewrite visit_unfold, Hleave, dispatched_children. simpl.
  destruct (descends lax_mode n);
    [|by rewrite Henter, orb_false_r].
  unfold generic_visit, traverse_children.
  assert (Hfold : ∀ l st, (∀ c, c ∈ l → c ∈ iter_child_nodes n) →
    flag (foldl (λ st c, traverse (enter R) leave (descends lax_mode) c st)
                st l)
    = flag st || existsb trigger (flat_map (dispatched lax_mode) l)).
  { induction l as [|c l IHl]; intros st' Hl; simpl;
      [by rewrite orb_false_r|].
    rewrite IHl by (intros; apply Hl; by right).
    rewrite existsb_app, orb_assoc. f_equal.
    apply IH, Hl. by left. }
  rewrite Hfold by done. by rewrite Henter, orb_assoc.
Qed.

End Flags.

(** C9: the empty-field format flag is raised exactly by a dispatched call
    [literal.format(...)] whose string literal contains [{}].  So
    ["{}".format(x)] raises it whatever [x] is, and ["{0}".format(x)] leaves
    it as it was; the two units of [test_format] end with the flag set and
    unset. *)
Theorem format27_empty_field (R : rules) (lax_mode : bool) (st : state) :
  (∀ n, format27 (visit R lax_mode n st)
        = format27 st || existsb empty_field_format (dispatched lax_mode n))
  ∧ (∀ x, format27 (visit R lax_mode
                      (Call (Attribute (Str "{}") "format") [x] []) st)
          = true)
  ∧ (∀ x, format27 (visit R lax_mode
                      (Call (Attribute (Str "{0}") "format") [Name x] []) st)
          = format27 st)
  ∧ format27 (visit R lax_mode
                (Module [Expr (Call (Name "print")
                   [Call (Attribute (Str "{}") "format") [Num] []] [])])
                init) = true
  ∧ format27 (visit R lax_mode
                (Module [Expr (Call (Name "print")
                   [Call (Attribute (Str "{0}") "format") [Num] []] [])])
                init) = false.
Proof.
  assert (Hflag : ∀ n st,
    format27 (visit R lax_mode n st)
    = format27 st || existsb empty_field_format (dispatched lax_mode n)).
  { apply visit_flag; [apply format27_enter|apply format27_leave]. }
  repeat split.
  - intros n. apply Hflag.
  - intros x. rewrite Hflag, dispatched_children. simpl. apply orb_true_r.
  - intros x. rewrite Hflag. by rewrite orb_false_r.
  - by rewrite Hflag.
  - by rewrite Hflag.
Qed.

(** ** Which nodes are dispatched *)

(** Where every handler on the way calls [generic_visit], nothing is left
    out: each node of the tree is dispatched, once. *)
Lemma dispatched_all (lax_mode : bool) (n : node) :
  (∀ m, m ∈ all_nodes n →
        descends lax_mode m = true ∨ iter_child_nodes m = []) →
  dispatched lax_mode n = all_nodes n.
Proof.
  induction n as [n IH] using node_children_ind. intros Hn.
  unfold all_nodes in *.
  rewrite dispatched_children, (logged_children (λ _, true) n).
  f_equal.
  assert (Hchildren : ∀ c m, c ∈ iter_child_nodes n →
            m ∈ logged (λ _, true) c → m ∈ logged (λ _, true) n).
  { intros c m Hc Hm. rewrite (logged_children (λ _, true) n).
    right. apply list_elem_of_In, in_flat_map. exists c.
    split; by apply list_elem_of_In. }
  destruct (Hn n) as [-> | Hnil].
  - rewrite (logged_children (λ _, true) n). by left.
  - induction (iter_child_nodes n) as [|c l IHl]; simpl; [done|].
    f_equal.
    + apply IH; [by left|]. intros m Hm. apply Hn.
      apply (Hchildren c); [by left|done].
    + apply IHl.
      * intros c' Hc'. apply IH. by right.
      * intros c' m Hc'. apply Hchildren. by right.
  - rewrite Hnil. by destruct (descends lax_mode n).
Qed.


(** ** The positions that are dispatched *)

Section Positions.

Lemma descends_keeps_to_itself (n : node) :
  descends false n = negb (keeps_to_itself n)
  ∨ (descends false n = false ∧ iter_child_nodes n = []).
Proof. destruct n; simpl; auto. Qed.

Lemma reached_cut (n : node) (i : nat) (p : list nat) :
  descends false n = false → reached (i :: p) n = false.
Proof.
  intros Hn. simpl.
  destruct (descends_keeps_to_itself n) as [Hk|[_ Hnil]].
  - rewrite Hn in Hk. by rewrite <- Hk.
  - rewrite Hnil. simpl. apply andb_false_r.
Qed.

Lemma forest_positions_exist (l : list node) :
  (∀ c, c ∈ l → ∃ ps, tree_positions c ps) →
  ∀ k, ∃ ps, forest_positions k l ps.
Proof.
  induction l as [|c l IH]; intros Hl k.
  - exists []. split; [constructor|]. split; [|constructor].
    intros p. split; [by intros ?%elem_of_nil|].
    by intros (i & p' & c & _ & ? & _).
  - destruct (Hl c) as (psc & Hnd & Hin & Hlog); [by left|].
    assert (Hl' : ∀ c', c' ∈ l → ∃ ps, tree_positions c' ps)
      by (intros c' Hc'; apply Hl; by right).
    destruct (IH Hl' (S k)) as (ps' & Hnd' & Hin' & Hlog').
    exists (((k ::.) <$> psc) ++ ps'). split; [|split].
    + apply NoDup_app. split; [|split; [|done]].
      * by apply (NoDup_fmap_2 _).
      * intros p (p0 & -> & _)%list_elem_of_fmap
          (i & p' & c' & [=] & _)%Hin'. lia.
    + intros p. rewrite elem_of_app, list_elem_of_fmap, Hin'. split.
      * intros [(p0 & -> & Hp0%Hin)|(i & p' & c' & -> & Hc' & Hp')].
        -- exists 0, p0, c. by rewrite Nat.add_0_r.
        -- exists (S i), p', c'. split; [f_equal; lia|done].
      * intros ([|i] & p' & c' & -> & Hc' & Hp').
        -- left. exists p'. injection Hc' as <-.
           split; [by rewrite Nat.add_0_r|by apply Hin].
        -- right. exists i, p', c'. split; [f_equal; lia|done].
    + simpl. apply Forall2_app.
      * apply Forall2_fmap_r. eapply Forall2_impl; [exact Hlog|].
        intros m p Hm. exists 0, p, c. by rewrite Nat.add_0_r.
      * eapply Forall2_impl; [exact Hlog'|].
        intros m p (i & p' & c' & -> & Hc' & Hm).
        exists (S i), p', c'. split; [f_equal; lia|done].
Qed.

Lemma tree_positions_exist (n : node) : ∃ ps, tree_positions n ps.
Proof.
  induction n as [n IH] using node_children_ind.
  unfold tree_positions. rewrite dispatched_children.
  destruct (descends false n) eqn:Hn.
  - destruct (forest_positions_exist (iter_child_nodes n) IH 0)
      as (ps & Hnd & Hin & Hlog).
    assert (Hk : keeps_to_itself n = false).
    { destruct (descends_keeps_to_itself n) as [Hk|[? _]]; [|congruence].
      rewrite Hn in Hk. by destruct (keeps_to_itself n). }
    exists ([] :: ps). split; [|split].
    + apply NoDup_cons. split; [|done].
      by intros (i & p' & c & [=] & _)%Hin.
    + intros [|i p]; [split; [done|by left]|].
      rewrite elem_of_cons, Hin. simpl. rewrite Hk. simpl. split.
      * intros [[=]|(i' & p' & c & [= -> ->] & -> & Hp)]. done.
      * destruct (iter_child_nodes n !! i) as [c|] eqn:Hc; [|done].
        intros Hp. right. by exists i, p, c.
    + constructor; [done|]. eapply Forall2_impl; [exact Hlog|].
      intros m p (i & p' & c & -> & Hc & Hm). simpl. by rewrite Hc.
  - exists [[]]. split; [apply NoDup_singleton|]. split.
    + intros [|i p]; [split; [done|by left]|].
      rewrite reached_cut by done. split; [|done].
      by intros [=]%list_elem_of_singleton.
    + by repeat constructor.
Qed.

Lemma dispatched_without_cut (n : node) :
  (∀ m, m ∈ all_nodes n → keeps_to_itself m = false) →
  dispatched false n = all_nodes n.
Proof.
  intros Hn. apply dispatched_all. intros m Hm%Hn.
  destruct (descends_keeps_to_itself m) as [Hk|[_ ?]]; [|by right].
  left. by rewrite Hk, Hm.
Qed.

End Positions.




(** ** The shadowing tracker *)

Lemma reverse_range_snoc {A : Type} (l : list A) (x : A) :
  reverse_range (l ++ [x]) = length l :: reverse_range l.
Proof.
  unfold reverse_range. rewrite length_app. simpl.
  rewrite Nat.add_1_r, seq_S, reverse_snoc. done.
Qed.

(** The reverse deletion loop removes every entry equal to [ud] and nothing
    else. *)
Lemma del_equal_filter (ud : string) (l : list string) :
  del_equal ud l = filter (λ x, x ≠ ud) l.
Proof.
  unfold del_equal.
  set (step := λ (l : list string) (i : nat),
         match l !! i with
         | Some x => if bool_decide (x = ud) then delete i l else l
         | None => l
         end).
  rewrite <-(app_nil_r (filter _ l)).
  rewrite <-(app_nil_r l) at 1. generalize (@nil string) as t.
  induction l as [|x l IH] using rev_ind; intros t; [done|].
  rewrite reverse_range_snoc. simpl. unfold step at 2.
  rewrite <-(assoc_L (++)). simpl.
  rewrite list_lookup_middle by done.
  rewrite filter_app. simpl.
  case_bool_decide as Hx.
  - rewrite delete_middle.
    rewrite (filter_cons_False _ x []) by (intros Hne; by apply Hne).
    rewrite filter_nil, app_nil_r. apply IH.
  - rewrite (filter_cons_True _ x []) by done.
    rewrite filter_nil, <-(assoc_L (++)). simpl. apply IH.
Qed.

(** The loop never reads past the end of its list. *)
Lemma del_equal_in_range (ud : string) (l : list string) :
  del_equal_checked ud l = Some (del_equal ud l).
Proof.
  rewrite del_equal_filter. unfold del_equal_checked.
  set (step := λ (ol : option (list string)) (i : nat),
         l ← ol;
         x ← l !! i;
         Some (if bool_decide (x = ud) then delete i l else l)).
  rewrite <-(app_nil_r (filter _ l)).
  rewrite <-(app_nil_r l) at 1. generalize (@nil string) as t.
  induction l as [|x l IH] using rev_ind; intros t; [done|].
  rewrite reverse_range_snoc. simpl.
  rewrite <-(assoc_L (++)). simpl.
  rewrite list_lookup_middle by done. simpl.
  rewrite filter_app. simpl.
  case_bool_decide as Hx.
  - rewrite delete_middle.
    rewrite (filter_cons_False _ x []) by (intros Hne; by apply Hne).
    rewrite filter_nil, app_nil_r. apply IH.
  - rewrite (filter_cons_True _ x []) by done.
    rewrite filter_nil, <-(assoc_L (++)). simpl. apply IH.
Qed.

Lemma elem_of_del_equal (ud x : string) (l : list string) :
  x ∈ del_equal ud l ↔ x ∈ l ∧ x ≠ ud.
Proof. rewrite del_equal_filter, list_elem_of_filter. tauto. Qed.

Section Shadowing.

Context (R : rules).

Lemma shadowed_tracked name st st' :
  tracked st' = tracked st → shadowed name st → shadowed name st'.
Proof.
  unfold tracked, shadowed. intros [= Hmod Hmem Hud].
  by rewrite Hmod, Hmem, Hud.
Qed.

Lemma shadowed_core name st st' :
  core st' = core st → shadowed name st → shadowed name st'.
Proof.
  unfold core. intros [= Hmod Hmem Hud _]. apply shadowed_tracked.
  unfold tracked. by rewrite Hmod, Hmem, Hud.
Qed.

Lemma shadowed_add_module name m st :
  shadowed name st → shadowed name (add_module m st).
Proof.
  unfold add_module. intros [Hname Hinv].
  repeat case_bool_decide; [done..|].
  split; [done|]. simpl. intros ud Hud.
  destruct (Hinv ud Hud) as [Hmod Hmem]. split; [|done].
  rewrite elem_of_app, list_elem_of_singleton. intros [?| ->]; done.
Qed.

Lemma shadowed_add_member name m st :
  shadowed name st → shadowed name (add_member R m st).
Proof.
  unfold add_member. intros [Hname Hinv].
  repeat case_bool_decide; [done| |done].
  split; [done|]. simpl. intros ud Hud.
  destruct (Hinv ud Hud) as [Hmod Hmem]. split; [done|].
  rewrite elem_of_app, list_elem_of_singleton. intros [?| ->]; done.
Qed.

(** The purge of [__add_user_def], for the names [uds] it runs over. *)
Lemma add_user_def_purge (uds : list string) (st : state) :
  let st' :=
    foldl (λ st ud,
             let st := set_modules (del_equal ud (modules st)) st in
             set_members (del_equal ud (members st)) st)
          st uds in
  user_defs st' = user_defs st
  ∧ (∀ x, x ∈ modules st' ↔ x ∈ modules st ∧ x ∉ uds)
  ∧ (∀ x, x ∈ members st' ↔ x ∈ members st ∧ x ∉ uds).
Proof.
  revert st. induction uds as [|ud uds IH]; intros st; simpl.
  - split; [done|].
    split; intros x; (split; [intros ?; split; [done|apply not_elem_of_nil]
                              |by intros [? _]]).
  - destruct (IH (set_members
                    (del_equal ud (members
                       (set_modules (del_equal ud (modules st)) st)))
                    (set_modules (del_equal ud (modules st)) st)))
      as (Hud & Hmod & Hmem).
    simpl in *. split; [done|].
    split; intros x; [rewrite Hmod|rewrite Hmem];
      rewrite elem_of_del_equal, not_elem_of_cons; tauto.
Qed.

(** Marking a name always leaves the tracker's invariant behind, whatever
    the state was before. *)
Lemma add_user_def_shadowed (name : string) (st : state) :
  shadowed name (add_user_def name st).
Proof.
  unfold add_user_def.
  set (st0 := if bool_decide (name ∈ user_defs st) then st
              else set_user_defs (user_defs st ++ [name]) st).
  destruct (add_user_def_purge (user_defs st0) st0) as (Hud & Hmod & Hmem).
  simpl in *. unfold shadowed. rewrite Hud. split.
  - unfold st0. case_bool_decide; [done|]. simpl.
    apply elem_of_app. right. by apply list_elem_of_singleton.
  - intros ud Hin. rewrite Hmod, Hmem. tauto.
Qed.

Lemma user_defs_add_user_def (name' : string) (st : state) :
  user_defs st ⊆ user_defs (add_user_def name' st).
Proof.
  unfold add_user_def.
  set (st0 := if bool_decide (name' ∈ user_defs st) then st
              else set_user_defs (user_defs st ++ [name']) st).
  destruct (add_user_def_purge (user_defs st0) st0) as (Hud & _).
  simpl in *. rewrite Hud. unfold st0. case_bool_decide; [done|]. simpl.
  intros x Hx. apply elem_of_app. by left.
Qed.

Lemma shadowed_add_user_def name name' st :
  shadowed name st → shadowed name (add_user_def name' st).
Proof.
  intros [Hname _]. split.
  - by apply user_defs_add_user_def.
  - apply (add_user_def_shadowed name' st).
Qed.

End Shadowing.

Section ShadowingVisit.

Context (R : rules) (lax_mode : bool).

Ltac shadow :=
  repeat first
    [ assumption
    | apply shadowed_add_module
    | apply shadowed_add_member
    | apply shadowed_add_user_def
    | apply (shadowed_core _ _ _ (core_check_codecs_function _ _ _ _ _))
    | apply (shadowed_core _ _ _ (core_add_array_typecode _ _))
    | apply (shadowed_core _ _ _ (core_visit_keyword _ _ _))
    | apply (shadowed_core _ _ _ (core_add_name_res_assign_node _ _ _))
    | match goal with
      | |- shadowed _ (?f _ ?st) =>
          apply (shadowed_tracked _ st); [reflexivity|]
      end
    | apply (foldl_preserves (shadowed _)); [intros|]
    | case_bool_decide
    | case_match ].

Lemma shadowed_attribute_modules_loop name fuel i head rest st :
  shadowed name st →
  shadowed name (attribute_modules_loop R fuel i head rest st).
Proof.
  revert i st. induction fuel as [|fuel IH]; intros i st Hst; simpl; [done|].
  case_match; [|done]. apply IH. shadow.
Qed.

Lemma shadowed_add_user_def_node name n st :
  shadowed name st → shadowed name (add_user_def_node n st).
Proof. intros Hst. unfold add_user_def_node. shadow. Qed.

Lemma shadowed_enter name n st :
  shadowed name st → shadowed name (enter R n st).
Proof.
  intros Hst.
  destruct n; simpl; try done;
    unfold visit_Import, visit_ImportFrom, visit_Name, visit_Call,
      visit_Attribute;
    repeat first
      [ apply shadowed_attribute_modules_loop
      | apply shadowed_add_user_def_node
      | progress shadow ].
Qed.

Lemma shadowed_leave name n st :
  shadowed name st → shadowed name (leave n st).
Proof.
  intros Hst. destruct n; simpl; try done;
    unfold FunctionDef_annotations; shadow.
Qed.

Lemma shadowed_visit name n st :
  shadowed name st → shadowed name (visit R lax_mode n st).
Proof.
  apply traverse_preserves; intros;
    [by apply shadowed_enter|by apply shadowed_leave].
Qed.

End ShadowingVisit.

(** C4: once [__add_user_def(name)] has run, on any state, [name] is among
    neither the module nor the member observations, and this stays so
    through every later visit, of any nodes: [__add_module] and
    [__add_member] reject the name each time. *)
Theorem user_defined_stays_out (R : rules) (lax_mode : bool) (name : string)
    (st : state) (later : list node) :
  let st' :=
    foldl (λ st n, visit R lax_mode n st) (add_user_def name st) later in
  name ∈ user_defs st'
  ∧ (name ∉ modules st')
  ∧ (name ∉ members st')
  ∧ add_module name st' = st'
  ∧ add_member R name st' = st'.
Proof.
  intros st'.
  assert (Hst' : shadowed name st').
  { apply (foldl_preserves (shadowed name)).
    - intros; by apply shadowed_visit.
    - apply add_user_def_shadowed. }
  destruct Hst' as [Hname Hinv]. destruct (Hinv name Hname) as [Hmod Hmem].
  repeat split; try done.
  - unfold add_module. by rewrite bool_decide_eq_true_2.
  - unfold add_member. by rewrite bool_decide_eq_true_2.
Qed.

(** ** Repeated observations *)

(** The units of [test_detect_min_version] resolve as the test expects. *)
Lemma detect_tests :
  detect test_rules false (Module [Import [MkAlias "abc" None]])
    = Ok (Some (ver 26), Some (ver 30))
  ∧ detect test_rules false
      (Module [Import [MkAlias "abc" None; MkAlias "argparse" None]])
    = Ok (Some (ver 27), Some (ver 32))
  ∧ detect test_rules false
      (Module [Import [MkAlias "abc" None];
               ImportFrom (Some "abc") [MkAlias "ABC" None]])
    = Ok (None, Some (ver 34)).
Proof. repeat split; vm_compute; reflexivity. Qed.

(** C3, at [from abc import ABC] written twice and at
    [t.strftime("%d/%m %d")]: [__add_member] and
    [__add_strftime_directive] append without looking, so the member
    [abc.ABC] and the directive [%d] are each recorded twice, where
    [__add_module] keeps the module [abc] once. *)
Theorem observation_recorded_twice :
  members (visit test_rules false
             (Module [ImportFrom (Some "abc") [MkAlias "ABC" None];
                      ImportFrom (Some "abc") [MkAlias "ABC" None]]) init)
    = ["abc.ABC"; "abc.ABC"]
  ∧ modules (visit test_rules false
               (Module [ImportFrom (Some "abc") [MkAlias "ABC" None];
                        ImportFrom (Some "abc") [MkAlias "ABC" None]]) init)
    = ["abc"; "abc.ABC"]
  ∧ strftime_directives
      (visit test_rules false
         (Module [Expr (Call (Attribute (Name "t") "strftime")
                          [Str "%d/%m %d"] [])]) init)
    = ["%d"; "%m"; "%d"]
  ∧ ∀ (g : string) (st : state),
      strftime_directives (add_strftime_directive g (add_strftime_directive g st))
      = strftime_directives st ++ [g; g].
Proof.
  repeat split; try (vm_compute; reflexivity).
  intros g st. simpl. by rewrite <-(assoc_L (++)).
Qed.

(** ** Fuel

    The two loops that the model runs on fuel get enough of it: more fuel
    never changes their result. *)

Lemma walk_from_fuel (fuel : nat) (todo : list node) :
  sum_list_with size todo ≤ fuel →
  walk_from fuel todo = walk_from (sum_list_with size todo) todo.
Proof.
  revert todo. induction fuel as [|fuel IH]; intros todo Hfuel.
  - by replace (sum_list_with size todo) with 0 by lia.
  - destruct todo as [|n todo]; [done|].
    simpl in *. rewrite (size_unfold n) in *. simpl.
    assert (Hsum : sum_list_with size (todo ++ iter_child_nodes n)
                   = sum_list_with size (iter_child_nodes n)
                     + sum_list_with size todo).
    { rewrite sum_list_with_app. lia. }
    rewrite <-Hsum. f_equal. apply IH. lia.
Qed.

Lemma walk_fuel (fuel : nat) (n : node) :
  size n ≤ fuel → walk_from fuel [n] = walk n.
Proof.
  intros Hfuel. unfold walk. rewrite walk_from_fuel by (simpl; lia).
  simpl. by rewrite Nat.add_0_r.
Qed.

Section LoopFuel.

Context (R : rules) (head : string) (rest : list string).

#[local] Abbreviation rounds_left := (rounds_left head rest).

Lemma rounds_left_same (i : nat) (st st' : state) (fuel : nat) :
  modules st' = modules st → i < length (modules st) →
  rounds_left i st ≤ S fuel → rounds_left (S i) st' ≤ fuel.
Proof. unfold rounds_left. intros -> Hi. case_bool_decide; lia. Qed.

Lemma rounds_left_add_module (i : nat) (st : state) (fuel : nat) :
  i < length (modules st) →
  rounds_left i st ≤ S fuel →
  rounds_left (S i) (add_module (dotted_name (head :: rest)) st) ≤ fuel.
Proof.
  intros Hi Hleft. unfold add_module.
  case_bool_decide; [by apply (rounds_left_same i st)|].
  case_bool_decide as Hin; [by apply (rounds_left_same i st)|].
  unfold rounds_left in *. simpl.
  rewrite bool_decide_eq_false_2 in Hleft by done.
  rewrite bool_decide_eq_true_2, length_app; simpl; [lia|].
  apply elem_of_app. right. by apply list_elem_of_singleton.
Qed.

Lemma attribute_modules_loop_fuel (fuel fuel' i : nat) (st : state) :
  rounds_left i st ≤ fuel → fuel ≤ fuel' →
  attribute_modules_loop R fuel' i head rest st
  = attribute_modules_loop R fuel i head rest st.
Proof.
  revert fuel' i st. induction fuel as [|fuel IH]; intros fuel' i st Hleft Hle.
  - unfold rounds_left in Hleft.
    assert (modules st !! i = None) as Hi by (apply lookup_ge_None; lia).
    destruct fuel'; simpl; by rewrite ?Hi.
  - destruct fuel' as [|fuel']; [lia|]. simpl.
    destruct (modules st !! i) as [m|] eqn:Hi; [|done].
    apply lookup_lt_Some in Hi.
    apply IH; [|lia].
    case_bool_decide; [by apply rounds_left_add_module|].
    case_match; apply (rounds_left_same i st); try done.
    unfold add_member. by repeat case_bool_decide.
Qed.

(** The fuel that [visit_Attribute] passes is enough. *)
Lemma visit_Attribute_fuel (fuel : nat) (st : state) :
  S (length (modules st)) ≤ fuel →
  attribute_modules_loop R fuel 0 head rest st
  = attribute_modules_loop R (S (length (modules st))) 0 head rest st.
Proof.
  intros Hfuel. apply attribute_modules_loop_fuel; [|done].
  unfold rounds_left. case_bool_decide; lia.
Qed.

End LoopFuel.

(** * Further properties of the visitor *)

(** ** Which fields an operation writes

    Each recording operation and each handler, written as the setters of the
    fields it may write applied to the state it was given: every other field
    is as before. *)

Section Footprints.

Context (R : rules).

Lemma state_eta (st : state) : set_modules (modules st) st = st.
Proof. by destruct st. Qed.

Ltac unfold_setters :=
  cbv [set_modules set_members set_printv2 set_printv3 set_format27
       set_longv2 set_bytesv3 set_fstrings set_bool_const set_annotations
       set_var_annotations set_coroutines set_function_name set_kwargs
       set_strftime_directives set_codecs_error_handlers set_codecs_encodings
       set_import_mem_mod set_name_res set_user_defs set_array_typecodes
       set_module_as_name
       modules members printv2 printv3 format27 longv2 bytesv3 fstrings
       bool_const annotations var_annotations coroutines function_name
       kwargs strftime_directives codecs_error_handlers codecs_encodings
       import_mem_mod name_res user_defs array_typecodes module_as_name].

Ltac written :=
  repeat lazymatch goal with |- ∃ _, _ => eexists end;
  unfold_setters; reflexivity.

Lemma add_module_writes m st :
  ∃ ms, add_module m st = set_modules ms st.
Proof.
  unfold add_module. repeat case_bool_decide; eauto using eq_sym, state_eta.
Qed.

Lemma add_member_writes m st :
  ∃ ms, add_member R m st = set_members ms st.
Proof.
  unfold add_member. destruct st.
  repeat case_bool_decide; eexists; reflexivity.
Qed.

Lemma add_kwargs_writes fn kw st :
  ∃ ks, add_kwargs R fn kw st = set_kwargs ks st.
Proof.
  unfold add_kwargs. destruct st.
  repeat case_bool_decide; simpl; eexists; reflexivity.
Qed.

Lemma add_array_typecode_writes t st :
  ∃ ts, add_array_typecode t st = set_array_typecodes ts st.
Proof.
  unfold add_array_typecode. destruct st.
  case_bool_decide; eexists; reflexivity.
Qed.

Lemma add_user_def_writes name st :
  ∃ us ms bs,
    add_user_def name st = set_members bs (set_modules ms (set_user_defs us st)).
Proof.
  unfold add_user_def.
  apply (foldl_preserves
           (λ st', ∃ us ms bs,
              st' = set_members bs (set_modules ms (set_user_defs us st)))).
  - intros st' ud (us & ms & bs & ->). written.
  - destruct st. case_bool_decide; written.
Qed.

Lemma add_user_def_node_writes n st :
  ∃ us ms bs,
    add_user_def_node n st
    = set_members bs (set_modules ms (set_user_defs us st)).
Proof.
  unfold add_user_def_node.
  repeat case_match; try apply add_user_def_writes;
    destruct st; written.
Qed.

Lemma add_codecs_error_handler_writes func args keywords st :
  ∃ es,
    add_codecs_error_handler R func args keywords st
    = set_codecs_error_handlers es st.
Proof.
  unfold add_codecs_error_handler. case_match; [|destruct st; written].
  apply (foldl_preserves
           (λ st', ∃ es, st' = set_codecs_error_handlers es st)).
  - intros st' kw [es ->]. repeat case_match; written.
  - destruct st. case_match; written.
Qed.

Lemma add_codecs_encoding_writes func args keywords st :
  ∃ cs,
    add_codecs_encoding R func args keywords st = set_codecs_encodings cs st.
Proof.
  unfold add_codecs_encoding. case_match; [|destruct st; written].
  apply (foldl_preserves (λ st', ∃ cs, st' = set_codecs_encodings cs st));
    [|destruct st; written].
  intros st' idx [cs ->].
  apply (foldl_preserves (λ st', ∃ cs, st' = set_codecs_encodings cs st)).
  - intros st' kw [cs' ->]. repeat case_match; written.
  - case_match; written.
Qed.

Lemma check_codecs_function_writes func args keywords st :
  ∃ es cs,
    check_codecs_function R func args keywords st
    = set_codecs_encodings cs (set_codecs_error_handlers es st).
Proof.
  unfold check_codecs_function.
  destruct (add_codecs_error_handler_writes func args keywords st) as [es ->].
  destruct (add_codecs_encoding_writes func args keywords
              (set_codecs_error_handlers es st)) as [cs ->].
  written.
Qed.

Lemma attribute_modules_loop_writes fuel i head rest st :
  ∃ ms bs,
    attribute_modules_loop R fuel i head rest st
    = set_members bs (set_modules ms st).
Proof.
  revert i st. induction fuel as [|fuel IH]; intros i st; simpl;
    [destruct st; written|].
  case_match; [|destruct st; written].
  case_bool_decide; [|case_match].
  - match goal with
    | |- context [add_module ?m st] =>
        destruct (add_module_writes m st) as [ms ->]
    end.
    destruct (IH (S i) (set_modules ms st)) as (ms' & bs & ->).
    written.
  - match goal with
    | |- context [add_member R ?m st] =>
        destruct (add_member_writes m st) as [bs ->]
    end.
    destruct (IH (S i) (set_members bs st)) as (ms & bs' & ->).
    written.
  - apply IH.
Qed.

Lemma visit_Attribute_writes value attr st :
  ∃ ms bs, visit_Attribute R value attr st = set_members bs (set_modules ms st).
Proof.
  unfold visit_Attribute. case_match; [destruct st; written|].
  match goal with
  | |- context [attribute_modules_loop R ?f ?i ?h ?r st] =>
      destruct (attribute_modules_loop_writes f i h r st) as (ms & bs & ->)
  end.
  match goal with
  | |- context [add_member R ?m ?s] =>
      destruct (add_member_writes m s) as [bs' ->]
  end.
  simpl. repeat case_match;
    try match goal with
      | |- context [add_member R ?m ?s] =>
          destruct (add_member_writes m s) as [bs'' ->]
      end; written.
Qed.

Lemma visit_keyword_writes arg st :
  ∃ ks, visit_keyword R arg st = set_kwargs ks st.
Proof.
  unfold visit_keyword. case_match; [|destruct st; written].
  repeat match goal with
    | |- context [add_kwargs R ?f ?a ?s] =>
        lazymatch s with
        | context [add_kwargs] => fail
        | _ => destruct (add_kwargs_writes f a s) as [? ->]; simpl
        end
    | |- context [match ?x with _ => _ end] => destruct x eqn:?; simpl
    end; written.
Qed.

Lemma add_name_res_assign_node_writes targets value st :
  ∃ nr, add_name_res_assign_node targets value st = set_name_res nr st.
Proof.
  unfold add_name_res_assign_node. case_match; [|destruct st; written].
  apply (foldl_preserves (λ st', ∃ nr, st' = set_name_res nr st));
    [|destruct st; written].
  intros st' t [nr ->]. destruct t; unfold add_name_res; written.
Qed.

End Footprints.

Section HandlerFootprints.

Context (R : rules).

Ltac unfold_setters :=
  cbv [set_modules set_members set_printv2 set_printv3 set_format27
       set_longv2 set_bytesv3 set_fstrings set_bool_const set_annotations
       set_var_annotations set_coroutines set_function_name set_kwargs
       set_strftime_directives set_codecs_error_handlers set_codecs_encodings
       set_import_mem_mod set_name_res set_user_defs set_array_typecodes
       set_module_as_name
       modules members printv2 printv3 format27 longv2 bytesv3 fstrings
       bool_const annotations var_annotations coroutines function_name
       kwargs strftime_directives codecs_error_handlers codecs_encodings
       import_mem_mod name_res user_defs array_typecodes module_as_name].

Ltac written :=
  repeat lazymatch goal with |- ∃ _, _ => eexists end;
  unfold_setters; reflexivity.

Lemma array_typecodes_loop_writes (args : list node) (st : state) :
  ∃ ts,
    foldl (λ st arg,
             match arg with
             | Str s => add_array_typecode s st
             | _ => st
             end) st args
    = set_array_typecodes ts st.
Proof.
  apply (foldl_preserves (λ st', ∃ ts, st' = set_array_typecodes ts st));
    [|destruct st; written].
  intros st' arg [ts ->]. destruct arg; try written.
  match goal with
  | |- context [add_array_typecode ?t ?s] =>
      destruct (add_array_typecode_writes t s) as [ts' ->]
  end.
  written.
Qed.

Lemma strftime_loop_writes (args : list node) (st : state) :
  ∃ ds,
    foldl (λ st arg,
             match literal_s arg with
             | Some s =>
                 foldl (λ st directive, add_strftime_directive directive st)
                       st (findall_directives s)
             | None => st
             end) st args
    = set_strftime_directives ds st.
Proof.
  apply (foldl_preserves (λ st', ∃ ds, st' = set_strftime_directives ds st));
    [|destruct st; written].
  intros st' arg [ds ->]. case_match; [|written].
  apply (foldl_preserves (λ st', ∃ ds, st' = set_strftime_directives ds st));
    [|written].
  intros st' d [ds' ->]. unfold add_strftime_directive. written.
Qed.

Lemma visit_Call_writes func args keywords st :
  ∃ fn bs es cs ts ds,
    visit_Call R func args keywords st
    = set_strftime_directives ds
        (set_array_typecodes ts
           (set_codecs_encodings cs
              (set_codecs_error_handlers es
                 (set_members bs
                    (set_function_name fn
                       (set_format27
                          (if empty_field_format (Call func args keywords)
                           then true else format27 st)
                          (set_printv3
                             (if print_call (Call func args keywords)
                              then true else printv3 st)
                             st))))))).
Proof.
  unfold visit_Call, empty_field_format, print_call.
  destruct func; try (destruct st; written).
  - (* a bare name *)
    match goal with
    | |- context [add_member R ?m ?s] =>
        destruct (add_member_writes R m s) as [bs ->]
    end.
    simpl.
    assert (Hcodecs : ∃ es cs,
      match import_mem_mod st !! id with
      | Some m =>
          check_codecs_function R (m +:+ "." +:+ id) args keywords
            (set_members bs (set_function_name (Some id) st))
      | None =>
          match module_as_name st !! id with
          | Some name =>
              check_codecs_function R name args keywords
                (set_members bs (set_function_name (Some id) st))
          | None => set_members bs (set_function_name (Some id) st)
          end
      end
      = set_codecs_encodings cs
          (set_codecs_error_handlers es
             (set_members bs (set_function_name (Some id) st)))).
    { repeat case_match; try apply check_codecs_function_writes.
      destruct st; written. }
    destruct Hcodecs as (es & cs & ->). simpl.
    case_bool_decide; [destruct st; written|].
    case_match; [|destruct st; written].
    match goal with
    | |- context [foldl ?f ?s ?l] =>
        destruct (array_typecodes_loop_writes l s) as [ts ->]
    end.
    destruct st; written.
  - (* a dotted callee *)
    match goal with
    | |- context [check_codecs_function R ?f ?a ?k ?s] =>
        destruct (check_codecs_function_writes R f a k s) as (es & cs & ->)
    end.
    destruct (bool_decide (attr = "format")) eqn:Hattr; simpl.
    + destruct func; simpl; try (repeat case_match; destruct st; written).
      all: repeat case_match; try (destruct st; written).
      all: match goal with
           | |- context [foldl ?f ?s ?l] =>
               destruct (strftime_loop_writes l s) as [ds ->]
           end; destruct st; written.
    + case_match; [|destruct func; destruct st; written].
      match goal with
      | |- context [foldl ?f ?s ?l] =>
          destruct (strftime_loop_writes l s) as [ds ->]
      end.
      destruct func; destruct st; written.
Qed.

Lemma visit_Import_writes names st :
  ∃ ms bs an,
    visit_Import R names st
    = set_module_as_name an (set_members bs (set_modules ms st)).
Proof.
  unfold visit_Import.
  apply (foldl_preserves
           (λ st', ∃ ms bs an,
              st' = set_module_as_name an (set_members bs (set_modules ms st))));
    [|destruct st; written].
  intros st' name (ms & bs & an & ->).
  match goal with
  | |- context [add_module ?m ?s] =>
      destruct (add_module_writes m s) as [ms' ->]
  end.
  match goal with
  | |- context [add_member R ?m ?s] =>
      destruct (add_member_writes R m s) as [bs' ->]
  end.
  case_match; written.
Qed.

Lemma visit_ImportFrom_writes module names st :
  ∃ ms bs im an,
    visit_ImportFrom R module names st
    = set_module_as_name an
        (set_import_mem_mod im (set_members bs (set_modules ms st))).
Proof.
  unfold visit_ImportFrom. case_match; [|destruct st; written].
  match goal with
  | |- context [add_module ?m st] =>
      destruct (add_module_writes m st) as [ms0 ->]
  end.
  apply (foldl_preserves
           (λ st', ∃ ms bs im an,
              st' = set_module_as_name an
                      (set_import_mem_mod im
                         (set_members bs (set_modules ms st)))));
    [|destruct st; written].
  intros st' name (ms & bs & im & an & ->).
  case_bool_decide; [case_match; written|].
  match goal with
  | |- context [add_module ?m ?s] =>
      destruct (add_module_writes m s) as [ms' ->]
  end.
  match goal with
  | |- context [add_member R ?m (set_modules ?a ?s)] =>
      destruct (add_member_writes R m (set_modules a s)) as [bs' ->]
  end.
  match goal with
  | |- context [add_member R ?m ?s] =>
      destruct (add_member_writes R m s) as [bs'' ->]
  end.
  case_match; written.
Qed.

End HandlerFootprints.

(** ** The feature flags over a whole traversal *)

Section RaisedFlags.

Context (R : rules) (lax_mode : bool).

Lemma add_user_def_nodes_writes (targets : list node) (st : state) :
  ∃ us ms bs,
    foldl (λ st target, add_user_def_node target st) st targets
    = set_members bs (set_modules ms (set_user_defs us st)).
Proof.
  apply (foldl_preserves
           (λ st', ∃ us ms bs,
              st' = set_members bs (set_modules ms (set_user_defs us st)))).
  - intros st' t (us & ms & bs & ->).
    destruct (add_user_def_node_writes t
                (set_members bs (set_modules ms (set_user_defs us st))))
      as (us' & ms' & bs' & ->).
    by eexists _, _, _.
  - destruct st. by eexists _, _, _.
Qed.

Lemma orb_if (b t : bool) : (if t then true else b) = b || t.
Proof. by destruct b, t. Qed.

Lemma flag_of_enter (f : flag) (n : node) (st : state) :
  flag_of f (enter R n st) = flag_of f st || raised_on_enter f n.
Proof.
  destruct n; simpl;
    try match goal with
      | |- context [add_name_res_assign_node ?t ?v ?s] =>
          destruct (add_name_res_assign_node_writes t v s) as [? ->]
      end;
    try match goal with
      | |- context [visit_Import R ?a ?s] =>
          destruct (visit_Import_writes R a s) as (? & ? & ? & ->)
      | |- context [visit_ImportFrom R ?m ?a ?s] =>
          destruct (visit_ImportFrom_writes R m a s) as (? & ? & ? & ? & ->)
      | |- context [visit_Call R ?fn ?a ?k ?s] =>
          destruct (visit_Call_writes R fn a k s)
            as (? & ? & ? & ? & ? & ? & ->)
      | |- context [visit_Attribute R ?v ?a ?s] =>
          destruct (visit_Attribute_writes R v a s) as (? & ? & ->)
      | |- context [visit_keyword R ?a ?s] =>
          destruct (visit_keyword_writes R a s) as [? ->]
      | |- context [foldl ?g ?s ?l] =>
          destruct (add_user_def_nodes_writes l s) as (? & ? & ? & ->)
      | |- context [add_user_def_node ?t ?s] =>
          destruct (add_user_def_node_writes t s) as (? & ? & ? & ->)
      | |- context [add_user_def ?t ?s] =>
          destruct (add_user_def_writes t s) as (? & ? & ? & ->)
      end;
    unfold visit_Name;
    destruct f; simpl; rewrite ?orb_false_r, ?orb_if; try done;
    repeat case_match; simpl; rewrite ?orb_false_r, ?orb_true_r; done.
Qed.

Lemma flag_of_FunctionDef_annotations (f : flag) args returns st :
  flag_of f (FunctionDef_annotations args returns st)
  = flag_of f st
    || match f with Annotations => annotated_def args returns | _ => false end.
Proof.
  unfold FunctionDef_annotations, annotated_def.
  destruct returns;
    [destruct f; simpl; by rewrite ?orb_true_r, ?orb_false_r|].
  destruct args; try (destruct f; simpl; by rewrite ?orb_false_r).
  destruct (existsb _ _); destruct f; simpl;
    by rewrite ?orb_true_r, ?orb_false_r.
Qed.

Lemma flag_of_leave (f : flag) (n : node) (st : state) :
  flag_of f (leave n st) = flag_of f st || raised_on_leave f n.
Proof.
  destruct n; simpl; rewrite ?flag_of_FunctionDef_annotations;
    destruct f; simpl; by rewrite ?orb_false_r, ?orb_true_r.
Qed.

(** A flag ends up raised exactly when it was raised before or one of the
    dispatched nodes raises it. *)
Lemma flag_of_visit (f : flag) (n : node) (st : state) :
  flag_of f (visit R lax_mode n st)
  = flag_of f st || existsb (raises f) (dispatched lax_mode n).
Proof.
  revert st. induction n as [n IH] using node_children_ind. intros st.
  rewrite visit_unfold, flag_of_leave, dispatched_children. simpl.
  unfold raises at 1.
  destruct (descends lax_mode n).
  - unfold generic_visit, traverse_children.
    assert (Hfold : ∀ l st, (∀ c, c ∈ l → c ∈ iter_child_nodes n) →
      flag_of f
        (foldl (λ st c, traverse (enter R) leave (descends lax_mode) c st)
               st l)
      = flag_of f st || existsb (raises f) (flat_map (dispatched lax_mode) l)).
    { induction l as [|c l IHl]; intros st' Hl; simpl;
        [by rewrite orb_false_r|].
      rewrite IHl by (intros; apply Hl; by right).
      rewrite existsb_app, orb_assoc. f_equal.
      apply IH, Hl. by left. }
    rewrite Hfold by done. rewrite flag_of_enter.
    destruct (flag_of f st), (raised_on_enter f n), (raised_on_leave f n),
      (existsb _ _); done.
  - rewrite flag_of_enter, orb_false_r.
    destruct (flag_of f st), (raised_on_enter f n), (raised_on_leave f n);
      done.
Qed.

End RaisedFlags.

(** ** Every observation goes through its recorder

    A property of the observation lists that each recorder keeps is kept by
    every handler, hence by a whole traversal: the handlers write to the
    lists through the recorders only. *)

Lemma foldl_preserves_in {A B : Type} (P : A → Prop) (f : A → B → A)
    (l : list B) (a : A) :
  (∀ a b, b ∈ l → P a → P (f a b)) → P a → P (foldl f a l).
Proof.
  revert a. induction l as [|b l IH]; intros a Hf Ha; simpl; [done|].
  apply IH; [intros; apply Hf; [by right|done]|].
  apply Hf; [by left|done].
Qed.

Section Recorders.

Context (R : rules) (lax_mode : bool) (P : state → Prop).

Hypothesis P_collections :
  ∀ st st', collections st' = collections st → P st → P st'.
Hypothesis P_add_module : ∀ m st, P st → P (add_module m st).
Hypothesis P_add_member : ∀ m st, P st → P (add_member R m st).
Hypothesis P_add_kwargs : ∀ fn kw st, P st → P (add_kwargs R fn kw st).
Hypothesis P_add_strftime_directive :
  ∀ s d st, d ∈ findall_directives s → P st → P (add_strftime_directive d st).
Hypothesis P_add_array_typecode :
  ∀ t st, P st → P (add_array_typecode t st).
Hypothesis P_add_user_def : ∀ name st, P st → P (add_user_def name st).
Hypothesis P_codecs_error_handler :
  ∀ name st,
    P st →
    P (set_codecs_error_handlers (codecs_error_handlers st ++ [name]) st).
Hypothesis P_codecs_encoding :
  ∀ name st,
    P st → P (set_codecs_encodings (codecs_encodings st ++ [name]) st).

Ltac recorder :=
  repeat first
    [ assumption
    | apply P_add_module
    | apply P_add_member
    | apply P_add_kwargs
    | apply P_add_array_typecode
    | apply P_add_user_def
    | apply P_codecs_error_handler
    | apply P_codecs_encoding
    | match goal with
      | H : ?d ∈ findall_directives ?s
        |- P (add_strftime_directive ?d _) =>
          apply (P_add_strftime_directive s d); [exact H|]
      | |- P (foldl _ _ (findall_directives _)) =>
          apply (foldl_preserves_in P); [intros|]
      | |- P (?f _ ?st) =>
          apply (P_collections st); [reflexivity|]
      end
    | apply (foldl_preserves P); [intros|]
    | case_bool_decide
    | case_match ].

Lemma recorded_check_codecs_function func args keywords st :
  P st → P (check_codecs_function R func args keywords st).
Proof.
  intros Hst.
  unfold check_codecs_function, add_codecs_encoding, add_codecs_error_handler.
  recorder.
Qed.

Lemma recorded_attribute_modules_loop fuel i head rest st :
  P st → P (attribute_modules_loop R fuel i head rest st).
Proof.
  revert i st. induction fuel as [|fuel IH]; intros i st Hst; simpl; [done|].
  case_match; [|done]. apply IH. recorder.
Qed.

Lemma recorded_add_user_def_node n st : P st → P (add_user_def_node n st).
Proof. intros Hst. unfold add_user_def_node. recorder. Qed.

Lemma recorded_add_name_res_assign_node targets value st :
  P st → P (add_name_res_assign_node targets value st).
Proof.
  intros Hst.
  destruct (add_name_res_assign_node_writes targets value st) as [nr ->].
  by apply (P_collections st).
Qed.

Lemma recorded_visit_keyword arg st : P st → P (visit_keyword R arg st).
Proof. intros Hst. unfold visit_keyword. recorder. Qed.

Lemma recorded_visit_Call func args keywords st :
  P st → P (visit_Call R func args keywords st).
Proof.
  intros Hst. unfold visit_Call.
  repeat first
    [ apply recorded_check_codecs_function | progress recorder ].
Qed.

Lemma recorded_enter n st : P st → P (enter R n st).
Proof.
  intros Hst.
  destruct n; simpl; try done;
    try (by apply recorded_visit_Call);
    try (by apply recorded_visit_keyword);
    unfold visit_Import, visit_ImportFrom, visit_Name, visit_Attribute;
    repeat first
      [ apply recorded_attribute_modules_loop
      | apply recorded_add_name_res_assign_node
      | apply recorded_add_user_def_node
      | progress recorder ].
Qed.

Lemma recorded_leave n st : P st → P (leave n st).
Proof.
  intros Hst. destruct n; simpl; try done;
    unfold FunctionDef_annotations; recorder.
Qed.

Lemma recorded_visit n st : P st → P (visit R lax_mode n st).
Proof.
  apply traverse_preserves; intros;
    [by apply recorded_enter|by apply recorded_leave].
Qed.

End Recorders.

(** ** Invariants of the observation lists *)

Section ListInvariants.

Context (R : rules) (lax_mode : bool).

Ltac by_writes :=
  intros;
  match goal with
  | |- context [add_module ?m ?s] =>
      destruct (add_module_writes m s) as [? ->]
  | |- context [add_member R ?m ?s] =>
      destruct (add_member_writes R m s) as [? ->]
  | |- context [add_kwargs R ?f ?k ?s] =>
      destruct (add_kwargs_writes R f k s) as [? ->]
  | |- context [add_array_typecode ?t ?s] =>
      destruct (add_array_typecode_writes t s) as [? ->]
  | |- context [add_user_def ?n ?s] =>
      destruct (add_user_def_writes n s) as (? & ? & ? & ->)
  end;
  simpl; assumption.

Ltac by_collections :=
  let H := fresh in
  intros ? ? H ?; unfold collections, known_kwargs in *;
  injection H; intros;
  repeat match goal with
    | E : _ = _ |- _ => try rewrite E; clear E
    end;
  assumption.

Lemma NoDup_snoc_new {A : Type} (l : list A) (x : A) :
  x ∉ l → NoDup l → NoDup (l ++ [x]).
Proof.
  intros Hx Hl. apply NoDup_app. split; [done|].
  split; [|apply NoDup_singleton].
  intros y Hy ->%list_elem_of_singleton. done.
Qed.

Lemma purge_fields (uds : list string) (st : state) :
  let st' :=
    foldl (λ st ud,
             let st := set_modules (del_equal ud (modules st)) st in
             set_members (del_equal ud (members st)) st)
          st uds in
  modules st' = foldl (λ l ud, del_equal ud l) (modules st) uds
  ∧ members st' = foldl (λ l ud, del_equal ud l) (members st) uds.
Proof.
  revert st. induction uds as [|ud uds IH]; intros st; simpl; [done|].
  apply (IH (set_members
               (del_equal ud (members
                  (set_modules (del_equal ud (modules st)) st)))
               (set_modules (del_equal ud (modules st)) st))).
Qed.

Lemma modules_add_user_def name st :
  ∃ uds, modules (add_user_def name st)
         = foldl (λ l ud, del_equal ud l) (modules st) uds
         ∧ members (add_user_def name st)
           = foldl (λ l ud, del_equal ud l) (members st) uds.
Proof.
  unfold add_user_def.
  set (st0 := if bool_decide (name ∈ user_defs st) then st
              else set_user_defs (user_defs st ++ [name]) st).
  exists (user_defs st0).
  replace (modules st) with (modules st0) by (unfold st0; by case_bool_decide).
  replace (members st) with (members st0) by (unfold st0; by case_bool_decide).
  apply purge_fields.
Qed.

Lemma purge_preserves (Q : list string → Prop) (l uds : list string) :
  (∀ l ud, Q l → Q (del_equal ud l)) →
  Q l → Q (foldl (λ l ud, del_equal ud l) l uds).
Proof. intros HQ. by apply foldl_preserves. Qed.

Lemma NoDup_del_equal (l : list string) (ud : string) :
  NoDup l → NoDup (del_equal ud l).
Proof. rewrite del_equal_filter. apply NoDup_filter. Qed.

(** *** Modules *)

Lemma NoDup_modules_visit n st :
  NoDup (modules st) → NoDup (modules (visit R lax_mode n st)).
Proof.
  apply (recorded_visit R lax_mode (λ st, NoDup (modules st)));
    try by_writes; try by_collections; try done.
  - intros m st'. unfold add_module. repeat case_bool_decide; try done.
    simpl. by apply NoDup_snoc_new.
  - intros name st' Hst'.
    destruct (modules_add_user_def name st') as (uds & -> & _).
    apply purge_preserves; [apply NoDup_del_equal|done].
Qed.

(** *** Keyword usages *)

Lemma known_kwargs_visit n st :
  known_kwargs R st → known_kwargs R (visit R lax_mode n st).
Proof.
  apply (recorded_visit R lax_mode (known_kwargs R));
    try by_writes; try by_collections; try done.
  intros fn kw st' Hst'. unfold add_kwargs.
  case_bool_decide; [done|].
  destruct (bool_decide (is_Some _)) eqn:Hk; simpl; [|done].
  destruct (bool_decide ((fn, kw) ∈ kwargs st')) eqn:Hin; simpl; [done|].
  apply bool_decide_eq_true in Hk. apply bool_decide_eq_false in Hin.
  destruct Hst' as [Hdup Hknown].
  split; [by apply NoDup_snoc_new|].
  apply Forall_app. split; [done|]. by apply Forall_singleton.
Qed.

(** *** Array typecodes *)

Lemma NoDup_array_typecodes_visit n st :
  NoDup (array_typecodes st) →
  NoDup (array_typecodes (visit R lax_mode n st)).
Proof.
  apply (recorded_visit R lax_mode (λ st, NoDup (array_typecodes st)));
    try by_writes; try by_collections; try done.
  intros t st' Hst'. unfold add_array_typecode.
  case_bool_decide; [done|]. simpl. by apply NoDup_snoc_new.
Qed.

(** *** Members *)

Lemma known_members_visit n st :
  Forall (λ m, is_Some (MOD_MEM_REQS R !! m)) (members st) →
  Forall (λ m, is_Some (MOD_MEM_REQS R !! m))
         (members (visit R lax_mode n st)).
Proof.
  apply (recorded_visit R lax_mode
           (λ st, Forall (λ m, is_Some (MOD_MEM_REQS R !! m)) (members st)));
    try by_writes; try by_collections; try done.
  - intros m st' Hst'. unfold add_member.
    case_bool_decide; [done|]. case_bool_decide; [|done]. simpl.
    apply Forall_app. split; [done|]. by apply Forall_singleton.
  - intros name st' Hst'.
    destruct (modules_add_user_def name st') as (uds & _ & ->).
    apply purge_preserves; [|done].
    intros l ud Hl. rewrite del_equal_filter.
    rewrite Forall_forall in Hl. apply Forall_forall.
    intros x [_ Hx]%list_elem_of_filter. by apply Hl.
Qed.

(** *** User-defined names *)

Lemma user_defs_add_user_def_eq name st :
  user_defs (add_user_def name st)
  = if bool_decide (name ∈ user_defs st) then user_defs st
    else user_defs st ++ [name].
Proof.
  unfold add_user_def.
  set (st0 := if bool_decide (name ∈ user_defs st) then st
              else set_user_defs (user_defs st ++ [name]) st).
  destruct (add_user_def_purge (user_defs st0) st0) as (Hud & _).
  simpl in *. rewrite Hud. unfold st0. by case_bool_decide.
Qed.

Lemma NoDup_user_defs_visit n st :
  NoDup (user_defs st) → NoDup (user_defs (visit R lax_mode n st)).
Proof.
  apply (recorded_visit R lax_mode (λ st, NoDup (user_defs st)));
    try by_collections; try done.
  all: try (intros; unfold add_module, add_member, add_kwargs,
              add_array_typecode; repeat case_bool_decide;
            repeat case_match; done).
  intros name st' Hst'. rewrite user_defs_add_user_def_eq.
  case_bool_decide; [done|]. by apply NoDup_snoc_new.
Qed.

Lemma user_defs_visit_mono n st :
  user_defs st ⊆ user_defs (visit R lax_mode n st).
Proof.
  apply (recorded_visit R lax_mode (λ st', user_defs st ⊆ user_defs st'));
    try by_collections; try done.
  all: try (intros; unfold add_module, add_member, add_kwargs,
              add_array_typecode; repeat case_bool_decide;
            repeat case_match; done).
  intros name st' Hst'. etrans; [exact Hst'|].
  apply user_defs_add_user_def.
Qed.

(** *** Strftime directives *)

Lemma findall_directives_from_shape (prev : bool) (s d : string) :
  d ∈ findall_directives_from prev s → is_directive d = true.
Proof.
  revert prev. induction s as [|c s IH]; intros prev; simpl.
  - by intros ?%elem_of_nil.
  - destruct (prev && is_word c) eqn:Hc.
    + intros [->|Hd]%elem_of_cons; [|by eapply IH].
      simpl. by apply andb_true_iff in Hc as [_ ->].
    + apply IH.
Qed.

Lemma directives_visit n st :
  Forall (λ d, is_directive d = true) (strftime_directives st) →
  Forall (λ d, is_directive d = true)
         (strftime_directives (visit R lax_mode n st)).
Proof.
  apply (recorded_visit R lax_mode
           (λ st, Forall (λ d, is_directive d = true)
                         (strftime_directives st)));
    try by_writes; try by_collections; try done.
  intros s d st' Hd Hst'. simpl.
  apply Forall_app. split; [done|]. apply Forall_singleton.
  by eapply findall_directives_from_shape.
Qed.

End ListInvariants.

(** ** Lax mode and the dispatched nodes *)

Lemma logged_mono (d1 d2 : node → bool) (n : node) :
  (∀ m, d1 m = true → d2 m = true) →
  logged d1 n `sublist_of` logged d2 n.
Proof.
  intros Hd. induction n as [n IH] using node_children_ind.
  rewrite (logged_children d1 n), (logged_children d2 n).
  apply sublist_skip. destruct (d1 n) eqn:Hn; [|apply sublist_nil_l].
  rewrite (Hd n Hn).
  induction (iter_child_nodes n) as [|c l IHl]; simpl; [done|].
  apply sublist_app; [apply IH; by left|].
  apply IHl. intros c' Hc'. apply IH. by right.
Qed.

(** ** The current function name *)

Section FunctionName.

Context (R : rules) (lax_mode : bool).

Lemma function_name_enter n st :
  is_call n = false → function_name (enter R n st) = function_name st.
Proof.
  intros Hn.
  destruct n; try discriminate Hn; simpl;
    try match goal with
      | |- context [add_name_res_assign_node ?t ?v ?s] =>
          destruct (add_name_res_assign_node_writes t v s) as [? ->]
      end;
    try match goal with
      | |- context [visit_Import R ?a ?s] =>
          destruct (visit_Import_writes R a s) as (? & ? & ? & ->)
      | |- context [visit_ImportFrom R ?m ?a ?s] =>
          destruct (visit_ImportFrom_writes R m a s) as (? & ? & ? & ? & ->)
      | |- context [visit_Attribute R ?v ?a ?s] =>
          destruct (visit_Attribute_writes R v a s) as (? & ? & ->)
      | |- context [visit_keyword R ?a ?s] =>
          destruct (visit_keyword_writes R a s) as [? ->]
      | |- context [foldl ?g ?s ?l] =>
          destruct (add_user_def_nodes_writes l s) as (? & ? & ? & ->)
      | |- context [add_user_def_node ?t ?s] =>
          destruct (add_user_def_node_writes t s) as (? & ? & ? & ->)
      | |- context [add_user_def ?t ?s] =>
          destruct (add_user_def_writes t s) as (? & ? & ? & ->)
      end;
    unfold visit_Name; repeat case_match; done.
Qed.

Lemma function_name_leave n st :
  function_name (leave n st)
  = if is_call n then None else function_name st.
Proof.
  destruct n; simpl; try done;
    unfold FunctionDef_annotations; by repeat case_match.
Qed.

Lemma function_name_visit n st :
  function_name st = None → function_name (visit R lax_mode n st) = None.
Proof.
  revert st. induction n as [n IH] using node_children_ind. intros st Hst.
  rewrite visit_unfold, function_name_leave.
  destruct (is_call n) eqn:Hn; [done|].
  destruct (descends lax_mode n); [|by rewrite function_name_enter].
  unfold generic_visit, traverse_children.
  apply (foldl_preserves_in (λ st, function_name st = None)).
  - intros st' c Hc Hst'. by apply IH.
  - by rewrite function_name_enter.
Qed.

Lemma function_name_visit_Call func args keywords st :
  function_name (visit R lax_mode (Call func args keywords) st) = None.
Proof. by rewrite visit_unfold, function_name_leave. Qed.

Lemma visit_keywords_no_function keywords st :
  function_name st = None →
  foldl (λ st c, visit R lax_mode c st) st (keyword_nodes keywords) = st.
Proof.
  intros Hst. induction keywords as [|[arg value] keywords IH]; [done|].
  change (keyword_nodes ((arg, value) :: keywords))
    with (Keyword arg value :: keyword_nodes keywords).
  cbn [foldl].
  assert (visit R lax_mode (Keyword arg value) st = st) as ->; [|done].
  rewrite visit_unfold. simpl. unfold visit_keyword. by rewrite Hst.
Qed.

End FunctionName.

(** * Further results *)

(** X1: after a traversal a feature flag is raised exactly when it was
    raised before or a dispatched node raises it: a [Print] node for the
    print statement, a call of the bare name [print], a name [long], a bytes
    literal, an f-string, a [True]/[False] constant, an async definition or
    an [await], an annotated assignment, or a definition with a return or
    parameter annotation.  No handler ever lowers a flag. *)
Theorem flags_raised_exactly (R : rules) (lax_mode : bool) (f : flag)
    (n : node) (st : state) :
  flag_of f (visit R lax_mode n st)
  = flag_of f st || existsb (raises f) (dispatched lax_mode n).
Proof. apply flag_of_visit. Qed.

(** X2: a traversal keeps "the variable-annotation flag implies the
    annotation flag": the only handler that raises the first,
    [visit_AnnAssign], raises both. *)
Theorem var_annotations_imply_annotations (R : rules) (lax_mode : bool)
    (n : node) (st : state) :
  (var_annotations st = true → annotations st = true) →
  var_annotations (visit R lax_mode n st) = true →
  annotations (visit R lax_mode n st) = true.
Proof.
  intros Hst.
  change (flag_of VarAnnotations (visit R lax_mode n st) = true →
          flag_of Annotations (visit R lax_mode n st) = true).
  rewrite !flag_of_visit. simpl.
  intros [Hva|Hraised]%orb_true_iff; apply orb_true_iff.
  - left. by apply Hst.
  - right. apply existsb_exists in Hraised as (m & Hm & Hraises).
    apply existsb_exists. exists m. split; [done|].
    destruct m; try discriminate Hraises; done.
Qed.

Lemma var_annotations_imply_annotations_witness :
  (var_annotations init = true → annotations init = true)
  ∧ annotations
      (visit test_rules false
         (Module [AnnAssign (Name "x") (Name "int") (Some Num)]) init)
    = true.
Proof.
  split; [discriminate|].
  apply (var_annotations_imply_annotations test_rules false
           (Module [AnnAssign (Name "x") (Name "int") (Some Num)]) init);
    [discriminate|reflexivity].
Defined.

(** X3: nothing below an attribute access or a keyword argument raises a
    flag, and below an f-string nothing but the f-string flag is raised:
    these handlers do not descend, so [long], a bytes literal or an [await]
    inside go unnoticed. *)
Theorem no_flag_from_below (R : rules) (lax_mode : bool) (f : flag)
    (st : state) :
  (∀ value attr,
     flag_of f (visit R lax_mode (Attribute value attr) st) = flag_of f st)
  ∧ (∀ arg value,
       flag_of f (visit R lax_mode (Keyword arg value) st) = flag_of f st)
  ∧ (∀ values,
       flag_of f (visit R lax_mode (JoinedStr values) st)
       = match f with Fstrings => true | _ => flag_of f st end).
Proof.
  repeat split; intros; rewrite flag_of_visit, dispatched_children; simpl;
    unfold raises; destruct f; simpl; rewrite ?orb_false_r, ?orb_true_r; done.
Qed.

(** X4: the module observations stay free of duplicates through any
    traversal: [__add_module] appends a path only when it is absent and
    [__add_user_def] only deletes. *)
Theorem modules_stay_distinct (R : rules) (lax_mode : bool) (n : node)
    (st : state) :
  NoDup (modules st) → NoDup (modules (visit R lax_mode n st)).
Proof. apply NoDup_modules_visit. Qed.

Lemma modules_stay_distinct_witness :
  NoDup (modules init)
  ∧ NoDup (modules (visit test_rules false
                      (Module [Import [MkAlias "abc" None];
                               Import [MkAlias "abc" None]]) init)).
Proof.
  split; [apply NoDup_nil_2|].
  apply (modules_stay_distinct test_rules false _ init). apply NoDup_nil_2.
Defined.

(** X5: the keyword usages stay free of duplicates and every one of them
    is a key of [KWARGS_REQS]: [__add_kwargs] records a pair only when the
    table has it and the list does not. *)
Theorem kwargs_stay_known (R : rules) (lax_mode : bool) (n : node)
    (st : state) :
  known_kwargs R st → known_kwargs R (visit R lax_mode n st).
Proof. apply known_kwargs_visit. Qed.

Lemma kwargs_stay_known_witness :
  known_kwargs test_rules init
  ∧ known_kwargs test_rules
      (visit test_rules false
         (Module [Expr (Call (Name "open") []
                          [(Some "dir_fd", NameConstant None)])]) init).
Proof.
  assert (Hinit : known_kwargs test_rules init)
    by (split; [apply NoDup_nil_2|apply Forall_nil_2]).
  split; [exact Hinit|].
  apply (kwargs_stay_known test_rules false _ init Hinit).
Defined.

(** X6: the array typecodes stay free of duplicates:
    [__add_array_typecode] appends a typecode only when it is absent. *)
Theorem array_typecodes_stay_distinct (R : rules) (lax_mode : bool)
    (n : node) (st : state) :
  NoDup (array_typecodes st) →
  NoDup (array_typecodes (visit R lax_mode n st)).
Proof. apply NoDup_array_typecodes_visit. Qed.

Lemma array_typecodes_stay_distinct_witness :
  NoDup (array_typecodes init)
  ∧ NoDup (array_typecodes
             (visit test_rules false
                (Module [Expr (Call (Name "array") [Str "u"; Str "u"] [])])
                init)).
Proof.
  split; [apply NoDup_nil_2|].
  apply (array_typecodes_stay_distinct test_rules false _ init).
  apply NoDup_nil_2.
Defined.

(** X7: every member observation is a key of [MOD_MEM_REQS]:
    [__add_member] records a name only when the table has it, so the list
    holds rule-matched names only. *)
Theorem members_stay_known (R : rules) (lax_mode : bool) (n : node)
    (st : state) :
  Forall (λ m, is_Some (MOD_MEM_REQS R !! m)) (members st) →
  Forall (λ m, is_Some (MOD_MEM_REQS R !! m))
         (members (visit R lax_mode n st)).
Proof. apply known_members_visit. Qed.

Lemma members_stay_known_witness :
  Forall (λ m, is_Some (MOD_MEM_REQS test_rules !! m)) (members init)
  ∧ Forall (λ m, is_Some (MOD_MEM_REQS test_rules !! m))
      (members (visit test_rules false
                  (Module [ImportFrom (Some "abc") [MkAlias "ABC" None]])
                  init)).
Proof.
  split; [apply Forall_nil_2|].
  apply (members_stay_known test_rules false _ init). apply Forall_nil_2.
Defined.

(** X8: the user-defined names only grow during a traversal, and stay free
    of duplicates: [__add_user_def] appends a name when it is absent and
    nothing removes one. *)
Theorem user_defs_grow (R : rules) (lax_mode : bool) (n : node)
    (st : state) :
  user_defs st ⊆ user_defs (visit R lax_mode n st)
  ∧ (NoDup (user_defs st) → NoDup (user_defs (visit R lax_mode n st))).
Proof. split; [apply user_defs_visit_mono|apply NoDup_user_defs_visit]. Qed.

Lemma user_defs_grow_witness :
  NoDup (user_defs init)
  ∧ NoDup (user_defs
             (visit test_rules false
                (Module [Assign [Name "x"] Num; Assign [Name "x"] Num])
                init)).
Proof.
  split; [apply NoDup_nil_2|].
  apply (user_defs_grow test_rules false _ init). apply NoDup_nil_2.
Defined.

(** X9: in a unit whose string literals are ASCII, every strftime directive
    on record is a percent sign followed by one word character: the only
    source of directives is the pattern [(%\w)] run over the string
    arguments of [strftime]/[strptime] calls.  (Outside ASCII the word
    class of Python 3 is wider than [is_word].) *)
Theorem strftime_directives_shape (R : rules) (lax_mode : bool) (n : node)
    (st : state) :
  forallb ascii_literal (all_nodes n) = true →
  Forall (λ d, is_directive d = true) (strftime_directives st) →
  Forall (λ d, is_directive d = true)
         (strftime_directives (visit R lax_mode n st)).
Proof. intros _. apply directives_visit. Qed.

Lemma strftime_directives_shape_witness :
  forallb ascii_literal
    (all_nodes (Module [Expr (Call (Attribute (Name "t") "strftime")
                                [Str "%A %d. %B %Y"] [])])) = true
  ∧ Forall (λ d, is_directive d = true) (strftime_directives init)
  ∧ Forall (λ d, is_directive d = true)
      (strftime_directives
         (visit test_rules false
            (Module [Expr (Call (Attribute (Name "t") "strftime")
                             [Str "%A %d. %B %Y"] [])]) init)).
Proof.
  split; [reflexivity|]. split; [apply Forall_nil_2|].
  apply (strftime_directives_shape test_rules false _ init);
    [reflexivity|apply Forall_nil_2].
Defined.

(** X15: lax mode only takes dispatches away: the nodes dispatched with
    lax mode on are among those dispatched with lax mode off, in the same
    order. *)
Theorem lax_mode_dispatches_less (n : node) :
  dispatched true n `sublist_of` dispatched false n.
Proof. apply logged_mono. intros m. by destruct m. Qed.

(** ** More on the shadowing tracker *)

Lemma del_equal_absent (ud : string) (l : list string) :
  ud ∉ l → del_equal ud l = l.
Proof.
  intros Hud. rewrite del_equal_filter.
  induction l as [|x l IH]; [done|].
  apply not_elem_of_cons in Hud as [Hne Hl].
  rewrite filter_cons_True by done. by rewrite IH.
Qed.

Lemma purge_noop (uds : list string) (st : state) :
  (∀ ud, ud ∈ uds → (ud ∉ modules st) ∧ (ud ∉ members st)) →
  foldl (λ st ud,
           let st := set_modules (del_equal ud (modules st)) st in
           set_members (del_equal ud (members st)) st)
        st uds = st.
Proof.
  induction uds as [|ud uds IH]; intros Hst; simpl; [done|].
  destruct (Hst ud) as [Hmod Hmem]; [by left|].
  rewrite (del_equal_absent ud (modules st)) by done.
  rewrite (del_equal_absent ud (members st)) by done.
  replace (set_members (members st) (set_modules (modules st) st)) with st
    by (by destruct st).
  apply IH. intros ud' Hud'. apply Hst. by right.
Qed.

Lemma add_user_def_shadowed_noop (name : string) (st : state) :
  shadowed name st → add_user_def name st = st.
Proof.
  intros [Hname Hinv]. unfold add_user_def.
  rewrite bool_decide_eq_true_2 by done. by apply purge_noop.
Qed.

(** X10: the deletion loop of [__add_user_def], which walks the indices of
    a list from the last to the first and deletes in place, never reads
    past the end of the shrinking list and leaves exactly the entries that
    differ from the user-defined name, in their order. *)
Theorem reverse_deletion_loop (ud : string) (l : list string) :
  del_equal_checked ud l = Some (filter (λ x, x ≠ ud) l).
Proof. by rewrite del_equal_in_range, del_equal_filter. Qed.

(** X11: marking a name as user-defined twice is the same as marking it
    once, whatever the state. *)
Theorem add_user_def_idempotent (name : string) (st : state) :
  add_user_def name (add_user_def name st) = add_user_def name st.
Proof. apply add_user_def_shadowed_noop, add_user_def_shadowed. Qed.

(** X12: the loop of [visit_Attribute] over the module observations, a
    list that the loop body may extend while it runs, comes to an end: it
    takes at most one round more than the list had entries at the start,
    and more rounds allowed change nothing. *)
Theorem visit_Attribute_loop_ends (R : rules) (head : string)
    (rest : list string) (fuel : nat) (st : state) :
  S (length (modules st)) ≤ fuel →
  attribute_modules_loop R fuel 0 head rest st
  = attribute_modules_loop R (S (length (modules st))) 0 head rest st.
Proof. apply visit_Attribute_fuel. Qed.

Lemma visit_Attribute_loop_ends_witness :
  S (length (modules (add_module "os" init))) ≤ 5
  ∧ modules (attribute_modules_loop test_rules 5 0 "os" ["path"]
               (add_module "os" init))
    = ["os"; "os.path"].
Proof.
  split; [vm_compute; lia|].
  rewrite (visit_Attribute_loop_ends test_rules "os" ["path"] 5
             (add_module "os" init)); [reflexivity|vm_compute; lia].
Defined.

(** ** Dotted names *)

Lemma size_attribute (value : node) (attr : string) :
  size (Attribute value attr) = S (size value).
Proof. reflexivity. Qed.

Lemma walk_Attribute (value : node) (attr : string) :
  walk (Attribute value attr) = Attribute value attr :: walk value.
Proof. unfold walk. by rewrite size_attribute. Qed.

Lemma node_id_attribute_chain (root : node) (a : string)
    (attrs : list string) :
  node_id (attribute_chain root (a :: attrs)) = None.
Proof.
  unfold attribute_chain.
  destruct (exists_last (l := a :: attrs)) as (l & c & ->); [done|].
  by rewrite foldl_app.
Qed.

Lemma attribute_chain_walk (id : string) (attrs acc : list string) :
  foldl attribute_name_step acc (walk (attribute_chain (Name id) attrs))
  = match attrs with [] => acc | _ => id :: attrs ++ acc end.
Proof.
  revert acc. induction attrs as [|a attrs IH] using rev_ind; intros acc;
    [done|].
  unfold attribute_chain. rewrite foldl_app. cbn [foldl].
  fold (attribute_chain (Name id) attrs).
  rewrite walk_Attribute. cbn [foldl attribute_name_step]. rewrite IH.
  destruct attrs as [|b attrs]; [done|].
  rewrite node_id_attribute_chain. simpl.
  by rewrite <-(assoc_L (++)).
Qed.

(** X13: for an attribute chain on a bare name, [id.a1.a2...an] with at
    least one attribute, [__get_attribute_name] returns the full path
    [id; a1; ...; an], in source order. *)
Theorem get_attribute_name_chain (id a : string) (attrs : list string) :
  get_attribute_name (attribute_chain (Name id) (a :: attrs))
  = id :: a :: attrs
  ∧ dotted_name (get_attribute_name (attribute_chain (Name id) [a]))
    = id +:+ "." +:+ a.
Proof.
  split.
  - unfold get_attribute_name.
    change (foldl attribute_name_step []
              (walk (attribute_chain (Name id) (a :: attrs)))
            = id :: a :: attrs).
    rewrite attribute_chain_walk. simpl. by rewrite app_nil_r.
  - reflexivity.
Qed.

(** ** Keyword arguments after a call argument *)

Section NestedCalls.

Context (R : rules) (lax_mode : bool).

Lemma function_name_after (l : list node) (st : state) :
  function_name st = None ∨ existsb is_call l = true →
  function_name (foldl (λ st c, visit R lax_mode c st) st l) = None.
Proof.
  revert st. induction l as [|c l IH]; intros st Hst; simpl.
  - by destruct Hst.
  - apply IH. destruct (is_call c) eqn:Hc.
    + left. destruct c; try discriminate Hc. apply function_name_visit_Call.
    + destruct Hst as [Hst|Hl].
      * left. by apply function_name_visit.
      * right. simpl in Hl. by rewrite Hc in Hl.
Qed.

End NestedCalls.



(** ** Imports *)

Lemma string_app_assoc (a b c : string) :
  (a +:+ b) +:+ c = a +:+ (b +:+ c).
Proof.
  induction a as [|x a IH]; [done|].
  change (String x ((a +:+ b) +:+ c) = String x (a +:+ (b +:+ c))).
  by rewrite IH.
Qed.

Section Imports.

Context (R : rules) (lax_mode : bool).

Lemma visit_aliases (names : list alias) (st : state) :
  foldl (λ st c, visit R lax_mode c st) st (map Alias names) = st.
Proof. induction names as [|a names IH]; [done|]. simpl. apply IH. Qed.

Lemma visit_Import_eq names st :
  visit R lax_mode (Import names) st = visit_Import R names st.
Proof.
  rewrite visit_unfold. cbn [leave enter descends].
  unfold generic_visit, traverse_children. cbn [iter_child_nodes].
  apply visit_aliases.
Qed.

Lemma module_as_name_visit_Import names st :
  module_as_name (visit_Import R names st)
  = foldl (record_asname "") (module_as_name st) names.
Proof.
  unfold visit_Import. revert st.
  induction names as [|name names IH]; intros st; [done|].
  cbn [foldl]. rewrite IH. f_equal.
  destruct (add_module_writes (alias_name name) st) as [ms ->].
  destruct (add_member_writes R (alias_name name) (set_modules ms st))
    as [bs ->].
  unfold record_asname. by destruct (alias_asname name).
Qed.

Lemma lookup_record_asname_other prefix (names : list alias) m a :
  (∀ al, al ∈ names → alias_asname al ≠ Some a) →
  foldl (record_asname prefix) m names !! a = m !! a.
Proof.
  revert m. induction names as [|name names IH]; intros m Hnames; [done|].
  cbn [foldl]. rewrite IH by (intros; apply Hnames; by right).
  unfold record_asname.
  destruct (alias_asname name) as [asname|] eqn:Hname; [|done].
  apply lookup_insert_ne. intros ->. by apply (Hnames name); [left|].
Qed.

Lemma lookup_record_asname prefix (names1 names2 : list alias) m x a :
  (∀ al, al ∈ names2 → alias_asname al ≠ Some a) →
  foldl (record_asname prefix) m (names1 ++ MkAlias x (Some a) :: names2) !! a
  = Some (prefix +:+ x).
Proof.
  intros Hnames. rewrite foldl_app. cbn [foldl].
  rewrite lookup_record_asname_other by done.
  unfold record_asname. simpl. apply lookup_insert_eq.
Qed.

Lemma visit_ImportFrom_fold module names st :
  visit_ImportFrom R (Some module) names st
  = foldl (ImportFrom_name R module) (add_module module st) names.
Proof. reflexivity. Qed.

Lemma ImportFrom_name_maps module st name :
  module_as_name (ImportFrom_name R module st name)
  = record_asname (module +:+ ".") (module_as_name st) name
  ∧ import_mem_mod (ImportFrom_name R module st name)
    = if bool_decide (alias_name name = "*") then import_mem_mod st
      else <[alias_name name := module]> (import_mem_mod st).
Proof.
  unfold ImportFrom_name, record_asname.
  case_bool_decide.
  - destruct (alias_asname name); simpl; by rewrite ?string_app_assoc.
  - match goal with
    | |- context [add_module ?m ?s] =>
        destruct (add_module_writes m s) as [ms ->]
    end.
    match goal with
    | |- context [add_member R ?m (set_modules ?a ?s)] =>
        destruct (add_member_writes R m (set_modules a s)) as [bs ->]
    end.
    match goal with
    | |- context [add_member R ?m ?s] =>
        destruct (add_member_writes R m s) as [bs' ->]
    end.
    destruct (alias_asname name); simpl; by rewrite ?string_app_assoc.
Qed.

Lemma visit_ImportFrom_maps module names st :
  let st' := visit_ImportFrom R (Some module) names st in
  module_as_name st'
  = foldl (record_asname (module +:+ ".")) (module_as_name st) names
  ∧ ∀ x, import_mem_mod st' !! x
         = if bool_decide (x ≠ "*" ∧ x ∈ map alias_name names)
           then Some module else import_mem_mod st !! x.
Proof.
  cbv zeta. rewrite visit_ImportFrom_fold.
  destruct (add_module_writes module st) as [ms0 ->].
  change (module_as_name st) with (module_as_name (set_modules ms0 st)).
  change (import_mem_mod st) with (import_mem_mod (set_modules ms0 st)).
  generalize (set_modules ms0 st) as st0. clear st ms0.
  induction names as [|name names IH] using rev_ind; intros st0.
  - split; [done|]. intros x. rewrite bool_decide_eq_false_2; [done|].
    intros [_ ?%elem_of_nil]. done.
  - rewrite !foldl_app. cbn [foldl].
    destruct (IH st0) as [Has Him]. clear IH.
    destruct (ImportFrom_name_maps module
                (foldl (ImportFrom_name R module) st0 names) name)
      as [-> Hmem].
    split; [by rewrite Has|].
    intros x. rewrite Hmem, map_app. simpl.
    case_bool_decide as Hstar.
    + rewrite Him.
      rewrite (bool_decide_ext
                 (x ≠ "*" ∧ x ∈ map alias_name names ++ [alias_name name])
                 (x ≠ "*" ∧ x ∈ map alias_name names)); [done|].
      rewrite elem_of_app, list_elem_of_singleton. intuition congruence.
    + destruct (decide (x = alias_name name)) as [->|Hne].
      * rewrite lookup_insert_eq. rewrite bool_decide_eq_true_2; [done|].
        split; [done|]. apply elem_of_app. right.
        by apply list_elem_of_singleton.
      * rewrite lookup_insert_ne by done. rewrite Him.
        rewrite (bool_decide_ext
                   (x ≠ "*" ∧ x ∈ map alias_name names ++ [alias_name name])
                   (x ≠ "*" ∧ x ∈ map alias_name names)); [done|].
        rewrite elem_of_app, list_elem_of_singleton. intuition congruence.
Qed.

End Imports.


(** X16: a star import records the module and nothing else: no member, no
    entry in the table of imported members, no alias. *)
Theorem star_import_records_module (R : rules) (lax_mode : bool)
    (module : string) (names : list alias) (st : state) :
  forallb star_alias names = true →
  visit R lax_mode (ImportFrom (Some module) names) st = add_module module st.
Proof.
  intros Hnames. rewrite visit_unfold. cbn [leave enter descends].
  rewrite visit_ImportFrom_fold.
  generalize (add_module module st) as st0.
  induction names as [|name names IH]; intros st0; [done|].
  apply andb_prop in Hnames as [Hname Hnames].
  apply bool_decide_eq_true in Hname as [Hstar Has].
  cbn [foldl]. unfold ImportFrom_name at 2.
  rewrite Has, bool_decide_eq_true_2 by done. by apply IH.
Qed.

Lemma star_import_records_module_witness :
  forallb star_alias [MkAlias "*" None] = true
  ∧ modules (visit test_rules false
               (ImportFrom (Some "os") [MkAlias "*" None]) init) = ["os"].
Proof.
  split; [reflexivity|].
  by rewrite (star_import_records_module test_rules false "os"
                [MkAlias "*" None] init).
Defined.

(** X17: after [import ... x as a ...] the alias table maps [a] to [x],
    where [x as a] is the last clause of the statement that binds [a]: a
    later clause for the same alias overwrites an earlier one. *)
Theorem import_alias_last_wins (R : rules) (lax_mode : bool)
    (names1 names2 : list alias) (x a : string) (st : state) :
  (∀ al, al ∈ names2 → alias_asname al ≠ Some a) →
  module_as_name
    (visit R lax_mode (Import (names1 ++ MkAlias x (Some a) :: names2)) st)
  !! a = Some x.
Proof.
  intros Hnames.
  rewrite visit_Import_eq, module_as_name_visit_Import.
  by rewrite (lookup_record_asname "" names1 names2 _ x a).
Qed.

Lemma import_alias_last_wins_witness :
  (∀ al, al ∈ [MkAlias "sys" None] → alias_asname al ≠ Some "p")
  ∧ module_as_name
      (visit test_rules false
         (Import ([MkAlias "os" (Some "p")]
                  ++ MkAlias "os.path" (Some "p") :: [MkAlias "sys" None]))
         init)
    !! "p" = Some "os.path".
Proof.
  assert (H : ∀ al, al ∈ [MkAlias "sys" None] → alias_asname al ≠ Some "p").
  { intros al ->%list_elem_of_singleton. discriminate. }
  split; [exact H|].
  exact (import_alias_last_wins test_rules false [MkAlias "os" (Some "p")]
           [MkAlias "sys" None] "os.path" "p" init H).
Defined.

(** X18: what [from module import n1 as a1, ...] leaves in the two import
    tables: every clause with an alias maps the alias to [module.n], in the
    order of the clauses, and every imported name other than the star is
    mapped to the module; the other entries stay as they were. *)
Theorem from_import_tables (R : rules) (lax_mode : bool) (module : string)
    (names : list alias) (st : state) :
  let st' := visit R lax_mode (ImportFrom (Some module) names) st in
  module_as_name st'
  = foldl (record_asname (module +:+ ".")) (module_as_name st) names
  ∧ ∀ x, import_mem_mod st' !! x
         = if bool_decide (x ≠ "*" ∧ x ∈ map alias_name names)
           then Some module else import_mem_mod st !! x.
Proof.
  cbv zeta. rewrite visit_unfold. cbn [leave enter descends].
  apply visit_ImportFrom_maps.
Qed.

(** ** Fields written at some nodes only *)

Ltac enter_footprints R :=
  try match goal with
    | |- context [add_name_res_assign_node ?t ?v ?s] =>
        destruct (add_name_res_assign_node_writes t v s) as [? ->]
    end;
  try match goal with
    | |- context [visit_Import R ?a ?s] =>
        destruct (visit_Import_writes R a s) as (? & ? & ? & ->)
    | |- context [visit_ImportFrom R ?m ?a ?s] =>
        destruct (visit_ImportFrom_writes R m a s) as (? & ? & ? & ? & ->)
    | |- context [visit_Call R ?f ?a ?k ?s] =>
        destruct (visit_Call_writes R f a k s)
          as (? & ? & ? & ? & ? & ? & ->)
    | |- context [visit_Attribute R ?v ?a ?s] =>
        destruct (visit_Attribute_writes R v a s) as (? & ? & ->)
    | |- context [visit_keyword R ?a ?s] =>
        destruct (visit_keyword_writes R a s) as [? ->]
    | |- context [foldl ?g ?s ?l] =>
        destruct (add_user_def_nodes_writes l s) as (? & ? & ? & ->)
    | |- context [add_user_def_node ?t ?s] =>
        destruct (add_user_def_node_writes t s) as (? & ? & ? & ->)
    | |- context [add_user_def ?t ?s] =>
        destruct (add_user_def_writes t s) as (? & ? & ? & ->)
    end;
  unfold visit_Name; repeat case_match; try done.

Section Untouched.

Context {A : Type} (R : rules) (lax_mode : bool).
Context (p : state → A) (writes : node → bool).

Hypothesis p_enter : ∀ n st, writes n = false → p (enter R n st) = p st.
Hypothesis p_leave : ∀ n st, writes n = false → p (leave n st) = p st.

Lemma untouched_visit n st :
  (∀ m, m ∈ dispatched lax_mode n → writes m = false) →
  p (visit R lax_mode n st) = p st.
Proof.
  revert st. induction n as [n IH] using node_children_ind. intros st Hn.
  assert (Hself : writes n = false).
  { apply Hn. rewrite dispatched_children. by left. }
  rewrite visit_unfold, p_leave by done.
  destruct (descends lax_mode n) eqn:Hd; [|by apply p_enter].
  unfold generic_visit, traverse_children.
  apply (foldl_preserves_in (λ s, p s = p st)).
  - intros s c Hc Hs. rewrite <- Hs. apply IH; [done|].
    intros m Hm. apply Hn. rewrite dispatched_children, Hd. right.
    apply list_elem_of_In, in_flat_map. exists c.
    split; by apply list_elem_of_In.
  - by apply p_enter.
Qed.

End Untouched.

Section Tables.

Context (R : rules) (lax_mode : bool).

Lemma leave_tables n st :
  module_as_name (leave n st) = module_as_name st
  ∧ import_mem_mod (leave n st) = import_mem_mod st
  ∧ name_res (leave n st) = name_res st.
Proof.
  destruct n; simpl; try done;
    unfold FunctionDef_annotations; by repeat case_match.
Qed.

Lemma module_as_name_enter n st :
  is_import n = false → module_as_name (enter R n st) = module_as_name st.
Proof.
  intros Hn. destruct n; try discriminate Hn; simpl; enter_footprints R.
Qed.

Lemma import_mem_mod_enter n st :
  is_import n = false → import_mem_mod (enter R n st) = import_mem_mod st.
Proof.
  intros Hn. destruct n; try discriminate Hn; simpl; enter_footprints R.
Qed.

Lemma name_res_enter n st :
  is_assignment n = false → name_res (enter R n st) = name_res st.
Proof.
  intros Hn. destruct n; try discriminate Hn; simpl; enter_footprints R.
Qed.

Lemma name_res_add_user_def_nodes (targets : list node) st :
  name_res (foldl (λ st target, add_user_def_node target st) st targets)
  = name_res st.
Proof.
  by destruct (add_user_def_nodes_writes targets st) as (? & ? & ? & ->).
Qed.

Lemma name_res_names value_name (vs : list string) st :
  name_res
    (foldl (λ st target,
              match target with
              | Name target_name => add_name_res target_name value_name st
              | _ => st
              end)
           st (map Name vs))
  = foldl (λ m v, <[v := value_name]> m) (name_res st) vs.
Proof.
  revert st. induction vs as [|v vs IH]; intros st; [done|].
  cbn [map foldl]. by rewrite IH.
Qed.

Lemma name_res_visit_names (vs : list string) st :
  name_res (foldl (λ st c, visit R lax_mode c st) st (map Name vs))
  = name_res st.
Proof.
  apply (foldl_preserves_in (λ s, name_res s = name_res st)); [|done].
  intros s c Hc <-.
  apply (untouched_visit R lax_mode name_res is_assignment).
  - apply name_res_enter.
  - intros; apply leave_tables.
  - apply list_elem_of_In, in_map_iff in Hc as (v & <- & _).
    intros m Hm. rewrite dispatched_children in Hm. simpl in Hm.
    by apply list_elem_of_singleton in Hm as ->.
Qed.

End Tables.

(** X19: the two import tables are written at import statements only: a
    traversal that dispatches no [Import] and no [ImportFrom] leaves the
    aliases of modules and the table of imported members as they were. *)
Theorem import_tables_written_at_imports (R : rules) (lax_mode : bool)
    (n : node) (st : state) :
  (∀ m, m ∈ dispatched lax_mode n → is_import m = false) →
  module_as_name (visit R lax_mode n st) = module_as_name st
  ∧ import_mem_mod (visit R lax_mode n st) = import_mem_mod st.
Proof.
  intros Hn. split.
  - apply (untouched_visit R lax_mode module_as_name is_import);
      [apply module_as_name_enter|intros; apply leave_tables|done].
  - apply (untouched_visit R lax_mode import_mem_mod is_import);
      [apply import_mem_mod_enter|intros; apply leave_tables|done].
Qed.

Lemma import_tables_written_at_imports_witness :
  (∀ m, m ∈ dispatched false
              (Module [Expr (Call (Name "f") [Name "x"] [])]) →
        is_import m = false)
  ∧ module_as_name
      (visit test_rules false
         (Module [Expr (Call (Name "f") [Name "x"] [])]) init)
    = module_as_name init.
Proof.
  assert (H : ∀ m, m ∈ dispatched false
                         (Module [Expr (Call (Name "f") [Name "x"] [])]) →
                   is_import m = false).
  { intros m Hm. vm_compute in Hm.
    repeat (apply elem_of_cons in Hm as [->|Hm]; [reflexivity|]).
    by apply elem_of_nil in Hm. }
  split; [exact H|].
  exact (proj1 (import_tables_written_at_imports test_rules false _ init H)).
Defined.

(** X20: an assignment [v1 = ... = vk = value.attr] of an attribute access
    to variables maps every one of the variables to the dotted name of the
    access in the table of variables, and this is all the statement and the
    nodes below it do to the table. *)
Theorem assign_attribute_resolves (R : rules) (lax_mode : bool)
    (vs : list string) (value : node) (attr : string) (st : state) :
  name_res
    (visit R lax_mode (Assign (map Name vs) (Attribute value attr)) st)
  = foldl (λ m v,
             <[v := dotted_name (get_attribute_name (Attribute value attr))]>
               m)
          (name_res st) vs.
Proof.
  rewrite visit_unfold. cbn [leave descends enter].
  unfold generic_visit, traverse_children. cbn [iter_child_nodes].
  rewrite foldl_app. cbn [foldl].
  change (traverse (enter R) leave (descends lax_mode)) with
    (visit R lax_mode).
  rewrite (untouched_visit R lax_mode name_res is_assignment).
  - rewrite name_res_visit_names. unfold add_name_res_assign_node.
    by rewrite name_res_names, name_res_add_user_def_nodes.
  - apply name_res_enter.
  - intros; apply leave_tables.
  - intros m Hm. rewrite dispatched_children in Hm. simpl in Hm.
    by apply list_elem_of_singleton in Hm as ->.
Qed.


(** ** Lists that only grow *)

Section Appended.

Context (R : rules) (lax_mode : bool) (st0 : state).

Ltac appended_step :=
  intros;
  repeat match goal with
    | H : appended _ _ |- _ => destruct H as (? & ? & ? & ? & ?)
    end;
  unfold appended, add_module, add_member, add_kwargs, add_array_typecode,
    add_strftime_directive;
  repeat case_bool_decide; repeat case_match; simpl;
  repeat split; try assumption; by apply prefix_app_r.

Lemma appended_visit n st :
  appended st0 st → appended st0 (visit R lax_mode n st).
Proof.
  apply (recorded_visit R lax_mode (appended st0)); try appended_step.
  - intros st1 st2 H (? & ? & ? & ? & ?). unfold collections in H.
    unfold appended. injection H as _ _ -> -> -> -> -> _. by repeat split.
  - intros name st1 (? & ? & ? & ? & ?).
    destruct (add_user_def_writes name st1) as (? & ? & ? & ->).
    by repeat split.
Qed.

End Appended.

(** X21: the keyword usages, the strftime directives, the array typecodes
    and the two lists of codecs names are append-only: what they hold before
    a traversal is a prefix of what they hold after it.  (The modules and
    the members are not: a user definition deletes from them.) *)
Theorem observations_append_only (R : rules) (lax_mode : bool) (n : node)
    (st : state) :
  appended st (visit R lax_mode n st).
Proof. apply appended_visit. by repeat split. Qed.

(** ** The codecs recorders *)

Section Pushes.

Context (proj : state → list string) (push : string → state → state).
Hypothesis proj_push : ∀ name st, proj (push name st) = proj st ++ [name].

Lemma proj_keyword_loop (test : option string → bool)
    (keywords : list (option string * node)) (st : state) :
  proj (foldl (λ st kw,
                 if test kw.1
                 then match literal_s kw.2 with
                      | Some name => push name st
                      | None => st
                      end
                 else st)
              st keywords)
  = proj st ++ keyword_literals test keywords.
Proof.
  revert st. induction keywords as [|kw keywords IH]; intros st.
  - by rewrite app_nil_r.
  - cbn [foldl]. rewrite IH. unfold keyword_literals. cbn [flat_map].
    rewrite app_assoc. f_equal.
    destruct (test kw.1); [|by rewrite app_nil_r].
    destruct (literal_s kw.2); [apply proj_push|by rewrite app_nil_r].
Qed.

Lemma proj_positional args idx st :
  proj match arg_at args idx ≫= literal_s with
       | Some name => push name st
       | None => st
       end
  = proj st ++ positional_literal args idx.
Proof.
  unfold positional_literal.
  destruct (arg_at args idx ≫= literal_s); [apply proj_push|].
  by rewrite app_nil_r.
Qed.

End Pushes.

Lemma codecs_error_handlers_recorded (R : rules) func args keywords st :
  codecs_error_handlers (add_codecs_error_handler R func args keywords st)
  = codecs_error_handlers st
    ++ match CODECS_ERRORS_INDICES R !! func with
       | Some idx =>
           positional_literal args idx
           ++ keyword_literals (λ a, bool_decide (a = Some "errors")) keywords
       | None => []
       end.
Proof.
  unfold add_codecs_error_handler.
  destruct (CODECS_ERRORS_INDICES R !! func) as [idx|];
    [|by rewrite app_nil_r].
  epose proof (proj_keyword_loop codecs_error_handlers
                 (λ name st,
                    set_codecs_error_handlers
                      (codecs_error_handlers st ++ [name]) st)
                 (λ _ _, eq_refl)
                 (λ a, bool_decide (a = Some "errors")) keywords _) as Hkw.
  cbv beta in Hkw. rewrite Hkw. clear Hkw.
  epose proof (proj_positional codecs_error_handlers
                 (λ name st,
                    set_codecs_error_handlers
                      (codecs_error_handlers st ++ [name]) st)
                 (λ _ _, eq_refl) args idx st) as Hpos.
  cbv beta in Hpos. rewrite Hpos. clear Hpos.
  by rewrite app_assoc.
Qed.

Lemma codecs_encodings_recorded (R : rules) func args keywords st :
  codecs_encodings (add_codecs_encoding R func args keywords st)
  = codecs_encodings st
    ++ match CODECS_ENCODINGS_INDICES R !! func with
       | Some idxs =>
           flat_map
             (λ idx,
                positional_literal args idx
                ++ keyword_literals
                     (λ a, bool_decide
                             (a ∈ [Some "encoding"; Some "data_encoding";
                                   Some "file_encoding"]))
                     keywords)
             idxs
       | None => []
       end.
Proof.
  unfold add_codecs_encoding.
  destruct (CODECS_ENCODINGS_INDICES R !! func) as [idxs|];
    [|by rewrite app_nil_r].
  revert st. induction idxs as [|idx idxs IH]; intros st.
  - by rewrite app_nil_r.
  - cbn [foldl flat_map]. rewrite IH.
    epose proof (proj_keyword_loop codecs_encodings
                   (λ name st,
                      set_codecs_encodings (codecs_encodings st ++ [name]) st)
                   (λ _ _, eq_refl)
                   (λ a, bool_decide
                           (a ∈ [Some "encoding"; Some "data_encoding";
                                 Some "file_encoding"]))
                   keywords _) as Hkw.
    cbv beta in Hkw. rewrite Hkw. clear Hkw.
    epose proof (proj_positional codecs_encodings
                   (λ name st,
                      set_codecs_encodings (codecs_encodings st ++ [name]) st)
                   (λ _ _, eq_refl) args idx st) as Hpos.
    cbv beta in Hpos. rewrite Hpos. clear Hpos.
    by rewrite !app_assoc.
Qed.

(** X22: what [__check_codecs_function] records for a call whose arguments
    hold no bytes literal.  The error handlers gain the string literal at
    the function's index, then the string literals passed as [errors=].  The
    encodings gain, for every index of the function in turn, the string
    literal at the index and then the string literals passed as
    [encoding=], [data_encoding=] or [file_encoding=]: the keyword loop is
    inside the loop over the indices, so a function with two indices records
    such a keyword twice.  Nothing is recorded for a function without an
    entry, and neither list drops duplicates. *)
Theorem codecs_names_recorded (R : rules) (func : string)
    (args : list node) (keywords : list (option string * node))
    (st : state) :
  forallb no_bytes (args ++ map snd keywords) = true →
  let st' := check_codecs_function R func args keywords st in
  codecs_error_handlers st'
  = codecs_error_handlers st
    ++ match CODECS_ERRORS_INDICES R !! func with
       | Some idx =>
           positional_literal args idx
           ++ keyword_literals (λ a, bool_decide (a = Some "errors")) keywords
       | None => []
       end
  ∧ codecs_encodings st'
    = codecs_encodings st
      ++ match CODECS_ENCODINGS_INDICES R !! func with
         | Some idxs =>
             flat_map
               (λ idx,
                  positional_literal args idx
                  ++ keyword_literals
                       (λ a, bool_decide
                               (a ∈ [Some "encoding"; Some "data_encoding";
                                     Some "file_encoding"]))
                       keywords)
               idxs
         | None => []
         end.
Proof.
  intros _. cbv zeta. unfold check_codecs_function. split.
  - destruct (add_codecs_encoding_writes R func args keywords
                (add_codecs_error_handler R func args keywords st))
      as [cs ->].
    cbn [codecs_error_handlers set_codecs_encodings].
    apply codecs_error_handlers_recorded.
  - rewrite codecs_encodings_recorded. f_equal.
    by destruct (add_codecs_error_handler_writes R func args keywords st)
      as [es ->].
Qed.

Lemma codecs_names_recorded_witness :
  forallb no_bytes
    ([Str "f"; Str "r"] ++ map snd [(Some "encoding", Str "utf-8")]) = true
  ∧ codecs_encodings
      (check_codecs_function example_rules "codecs.open" [Str "f"; Str "r"]
         [(Some "encoding", Str "utf-8")] init)
    = ["utf-8"; "utf-8"].
Proof.
  split; [reflexivity|].
  by rewrite (proj2 (codecs_names_recorded example_rules "codecs.open"
                       [Str "f"; Str "r"] [(Some "encoding", Str "utf-8")]
                       init eq_refl)).
Defined.

(** ** The resolver on observations without a rule *)

Lemma combine_table_unmatched `{Countable K} (table : gmap K versions)
    (xs : list K) (mins : versions) :
  Forall (λ x, table !! x = None) xs → combine_table table xs mins = Ok mins.
Proof.
  unfold combine_table. induction 1 as [|x xs Hx _ IH]; [done|].
  cbn [foldl]. simpl. by rewrite Hx.
Qed.

Lemma encodings_row_unmatched (e : string)
    (table : list (list string * versions)) (mins : versions) :
  Forall (λ encs : list string * versions, lower e ∉ encs.1) table →
  foldl (λ r encs,
           mins ← r;
           if bool_decide (lower e ∈ encs.1)
           then combine_versions mins encs.2
           else Ok mins)
        (Ok mins) table
  = Ok mins.
Proof.
  induction 1 as [|encs table Hencs _ IH]; [done|].
  cbn [foldl mbind result_bind]. by rewrite bool_decide_eq_false_2.
Qed.

Lemma combine_encodings_unmatched (R : rules) (xs : list string)
    (mins : versions) :
  Forall (λ e, Forall (λ encs : list string * versions, lower e ∉ encs.1)
                      (CODECS_ENCODINGS R)) xs →
  combine_encodings R xs mins = Ok mins.
Proof.
  unfold combine_encodings. induction 1 as [|x xs Hx _ IH]; [done|].
  cbn [foldl]. by rewrite encodings_row_unmatched.
Qed.




(** X24: outside a call no function name is set: a traversal that starts
    without one ends without one, whatever calls it went through, so a
    keyword argument is only ever attributed to a call that encloses it. *)
Theorem function_name_cleared (R : rules) (lax_mode : bool) (n : node)
    (st : state) :
  function_name st = None →
  function_name (visit R lax_mode n st) = None.
Proof. apply function_name_visit. Qed.

Lemma function_name_cleared_witness :
  function_name init = None
  ∧ function_name
      (visit test_rules false
         (Module [Expr (Call (Name "f") [Call (Name "g") [] []]
                          [(Some "key", Num)])]) init) = None.
Proof.
  split; [reflexivity|].
  by apply (function_name_cleared test_rules false).
Defined.

(** ** Attribute access on a module *)

Section AttributeOfModule.

Context (R : rules) (head : string) (rest : list string).

Lemma add_module_elem m st :
  m ∉ user_defs st → m ∈ modules (add_module m st).
Proof.
  intros Hm. unfold add_module.
  rewrite bool_decide_eq_false_2 by done.
  case_bool_decide; [done|]. simpl.
  apply elem_of_app. right. by apply list_elem_of_singleton.
Qed.

Lemma attribute_modules_loop_mono fuel i x st :
  x ∈ modules st →
  x ∈ modules (attribute_modules_loop R fuel i head rest st).
Proof.
  revert i st. induction fuel as [|fuel IH]; intros i st Hx; simpl; [done|].
  case_match; [|done]. apply IH.
  case_bool_decide; [|case_match; [|done]].
  - unfold add_module. repeat case_bool_decide; try done. simpl.
    apply elem_of_app. by left.
  - match goal with
    | |- context [add_member R ?m st] =>
        by destruct (add_member_writes R m st) as [? ->]
    end.
Qed.

Lemma attribute_modules_loop_records fuel i k st :
  modules st !! k = Some head → i ≤ k → k - i < fuel →
  dotted_name (head :: rest) ∉ user_defs st →
  dotted_name (head :: rest)
  ∈ modules (attribute_modules_loop R fuel i head rest st).
Proof.
  revert i st. induction fuel as [|fuel IH]; intros i st Hk Hi Hfuel Hud;
    [lia|].
  simpl. destruct (modules st !! i) as [m|] eqn:Hm.
  - case_bool_decide as Hhead.
    + apply attribute_modules_loop_mono. by apply add_module_elem.
    + assert (i ≠ k) by (intros ->; congruence).
      assert (∀ st', modules st' = modules st → user_defs st' = user_defs st →
                dotted_name (head :: rest)
                ∈ modules (attribute_modules_loop R fuel (S i) head rest st'))
        as Hnext.
      { intros st' Hms Huds. apply IH; [by rewrite Hms|lia|lia|].
        by rewrite Huds. }
      case_match; [|by apply Hnext].
      match goal with
      | |- context [add_member R ?x st] =>
          destruct (add_member_writes R x st) as [? ->]
      end.
      by apply Hnext.
  - apply lookup_ge_None in Hm. apply lookup_lt_Some in Hk. lia.
Qed.

End AttributeOfModule.

(** X25: an attribute access whose name path starts with a module on record
    puts the dotted path on record as a module too, unless the dotted path
    is user-defined: after [import os], the access [os.path] records
    [os.path]. *)
Theorem attribute_of_module_recorded (R : rules) (lax_mode : bool)
    (value : node) (attr head : string) (rest : list string) (st : state) :
  get_attribute_name (Attribute value attr) = head :: rest →
  head ∈ modules st →
  dotted_name (head :: rest) ∉ user_defs st →
  dotted_name (head :: rest)
  ∈ modules (visit R lax_mode (Attribute value attr) st).
Proof.
  intros Hname [k Hk]%list_elem_of_lookup Hud.
  rewrite visit_unfold. cbn [leave enter descends].
  unfold visit_Attribute. rewrite Hname.
  pose proof (attribute_modules_loop_records R head rest
                (S (length (modules st))) 0 k st Hk) as Hloop.
  apply lookup_lt_Some in Hk as Hlt.
  specialize (Hloop ltac:(lia) ltac:(lia) Hud).
  revert Hloop.
  generalize (attribute_modules_loop R (S (length (modules st))) 0 head rest
                st) as st1.
  intros st1 Hst1.
  destruct (add_member_writes R (dotted_name (head :: rest)) st1) as [bs ->].
  cbn [name_res import_mem_mod set_members].
  repeat case_match;
    try match goal with
      | |- context [add_member R ?m ?s] =>
          destruct (add_member_writes R m s) as [? ->]
      end;
    exact Hst1.
Qed.

Lemma attribute_of_module_recorded_witness :
  get_attribute_name (Attribute (Name "os") "path") = "os" :: ["path"]
  ∧ "os" ∈ modules (add_module "os" init)
  ∧ (dotted_name ("os" :: ["path"]) ∉ user_defs (add_module "os" init))
  ∧ dotted_name ("os" :: ["path"])
    ∈ modules (visit test_rules false (Attribute (Name "os") "path")
                 (add_module "os" init)).
Proof.
  assert (H1 : get_attribute_name (Attribute (Name "os") "path")
               = "os" :: ["path"]) by reflexivity.
  assert (H2 : "os" ∈ modules (add_module "os" init))
    by (apply list_elem_of_singleton; reflexivity).
  assert (H3 : dotted_name ("os" :: ["path"])
               ∉ user_defs (add_module "os" init))
    by (intros H; by apply elem_of_nil in H).
  exact (conj H1 (conj H2 (conj H3
           (attribute_of_module_recorded test_rules false (Name "os") "path"
              "os" ["path"] (add_module "os" init) H1 H2 H3)))).
Defined.


(** ** Keyword arguments of a call *)

Section KeywordOfCall.

Context (R : rules) (lax_mode : bool).

Lemma user_defs_enter n st :
  is_assignment n || is_definition n = false →
  user_defs (enter R n st) = user_defs st.
Proof.
  intros Hn. destruct n; try discriminate Hn; simpl; enter_footprints R.
Qed.

Lemma user_defs_leave n st : user_defs (leave n st) = user_defs st.
Proof.
  destruct n; simpl; try done;
    unfold FunctionDef_annotations; by repeat case_match.
Qed.

Lemma inert_visit n st :
  (∀ m, m ∈ dispatched lax_mode n → inert m = true) →
  function_name (visit R lax_mode n st) = function_name st
  ∧ user_defs (visit R lax_mode n st) = user_defs st.
Proof.
  intros Hn. split.
  - apply (untouched_visit R lax_mode function_name is_call).
    + intros. by apply function_name_enter.
    + intros m st' Hm. by rewrite function_name_leave, Hm.
    + intros m Hm. apply Hn in Hm. unfold inert in Hm.
      by destruct (is_call m).
  - apply (untouched_visit R lax_mode user_defs
             (λ m, is_assignment m || is_definition m)).
    + apply user_defs_enter.
    + intros. apply user_defs_leave.
    + intros m Hm. apply Hn in Hm. unfold inert in Hm.
      by destruct (is_call m), (is_assignment m), (is_definition m).
Qed.

Lemma add_kwargs_elem fn kw st :
  fn ∉ user_defs st → is_Some (KWARGS_REQS R !! (fn, kw)) →
  (fn, kw) ∈ kwargs (add_kwargs R fn kw st).
Proof.
  intros Hfn Hrule. unfold add_kwargs.
  rewrite bool_decide_eq_false_2, (bool_decide_eq_true_2 _ Hrule) by done.
  case_bool_decide; simpl; [done|].
  apply elem_of_app. right. by apply list_elem_of_singleton.
Qed.

Lemma add_kwargs_mono x fn kw st :
  x ∈ kwargs st → x ∈ kwargs (add_kwargs R fn kw st).
Proof.
  intros Hx. unfold add_kwargs.
  case_bool_decide; [done|]. case_match; [|done]. simpl.
  apply elem_of_app. by left.
Qed.

Lemma visit_keyword_records fn kw st :
  function_name st = Some fn →
  fn ∉ user_defs st → is_Some (KWARGS_REQS R !! (fn, kw)) →
  (fn, kw) ∈ kwargs (visit_keyword R kw st).
Proof.
  intros Hfn Hud Hrule. unfold visit_keyword. rewrite Hfn.
  repeat case_match;
    repeat first [ by apply add_kwargs_elem | apply add_kwargs_mono ].
Qed.

Lemma visit_Keyword_eq arg value st :
  visit R lax_mode (Keyword arg value) st = visit_keyword R arg st.
Proof. by rewrite visit_unfold. Qed.

Lemma kwargs_visit_mono x n st :
  x ∈ kwargs st → x ∈ kwargs (visit R lax_mode n st).
Proof.
  intros Hx.
  destruct (appended_visit R lax_mode st n st) as [[l ->] _];
    [by repeat split|].
  apply elem_of_app. by left.
Qed.

Lemma keyword_of_call fn kw value args keywords st :
  (∀ a m, a ∈ args → m ∈ dispatched lax_mode a → inert m = true) →
  (kw, value) ∈ keywords →
  fn ∉ user_defs st → is_Some (KWARGS_REQS R !! (fn, kw)) →
  (fn, kw) ∈ kwargs (visit R lax_mode (Call (Name fn) args keywords) st).
Proof.
  intros Hargs (ks1 & ks2 & ->)%list_elem_of_split Hud Hrule.
  rewrite visit_unfold. cbn [leave descends enter].
  unfold generic_visit, traverse_children. cbn [iter_child_nodes].
  change (traverse (enter R) leave (descends lax_mode)) with
    (visit R lax_mode).
  cbn [kwargs set_function_name].
  assert (Hcall : function_name (visit_Call R (Name fn) args
                                   (ks1 ++ (kw, value) :: ks2) st) = Some fn
                  ∧ user_defs (visit_Call R (Name fn) args
                                 (ks1 ++ (kw, value) :: ks2) st)
                    = user_defs st).
  { unfold visit_Call.
    repeat match goal with
      | |- context [check_codecs_function R ?f ?a ?k ?s] =>
          destruct (check_codecs_function_writes R f a k s) as (? & ? & ->)
      | |- context [add_member R ?m ?s] =>
          destruct (add_member_writes R m s) as [? ->]
      | |- context [foldl ?g ?s args] =>
          destruct (array_typecodes_loop_writes args s) as [? ->]
      | _ => case_match
      end; done. }
  revert Hcall.
  generalize (visit_Call R (Name fn) args (ks1 ++ (kw, value) :: ks2) st)
    as st1.
  intros st1 Hst1.
  unfold keyword_nodes. rewrite map_app, app_comm_cons, app_assoc.
  rewrite foldl_app. cbn [map foldl].
  apply (foldl_preserves_in (λ s, (fn, kw) ∈ kwargs s));
    [intros; by apply kwargs_visit_mono|].
  rewrite visit_Keyword_eq.
  assert (Hpre :
    function_name
      (foldl (λ st c, visit R lax_mode c st) st1
         ((Name fn :: args) ++ map (λ kw, Keyword kw.1 kw.2) ks1)) = Some fn
    ∧ user_defs
        (foldl (λ st c, visit R lax_mode c st) st1
           ((Name fn :: args) ++ map (λ kw, Keyword kw.1 kw.2) ks1))
      = user_defs st).
  { apply (foldl_preserves_in
             (λ s, function_name s = Some fn ∧ user_defs s = user_defs st));
      [|done].
    intros s c Hc [Hfn Huds].
    apply elem_of_app in Hc as [Hc|Hc].
    - destruct (inert_visit c s) as [-> ->]; [|done].
      apply elem_of_cons in Hc as [->|Hc];
        [|intros m Hm; by apply (Hargs c)].
      intros m Hm. rewrite dispatched_children in Hm. simpl in Hm.
      by apply list_elem_of_singleton in Hm as ->.
    - apply list_elem_of_In, in_map_iff in Hc as ([a v] & <- & _).
      cbn [fst snd]. rewrite visit_Keyword_eq.
      by destruct (visit_keyword_writes R a s) as [? ->]. }
  destruct Hpre as [Hfn Huds].
  apply visit_keyword_records; [done| |done]. by rewrite Huds.
Qed.

End KeywordOfCall.

(** X26: a call [fn(..., kw=value, ...)] of a bare name puts the pair
    [(fn, kw)] on record when the pair has a rule and [fn] is not
    user-defined, as long as no argument of the call holds a call of its own
    (which would clear the function name, see X14), an assignment or a
    definition. *)
Theorem keyword_of_call_recorded (R : rules) (lax_mode : bool)
    (fn : string) (kw : option string) (value : node) (args : list node)
    (keywords : list (option string * node)) (st : state) :
  (∀ a m, a ∈ args → m ∈ dispatched lax_mode a → inert m = true) →
  (kw, value) ∈ keywords →
  fn ∉ user_defs st →
  is_Some (KWARGS_REQS R !! (fn, kw)) →
  (fn, kw) ∈ kwargs (visit R lax_mode (Call (Name fn) args keywords) st).
Proof. apply keyword_of_call. Qed.

Lemma keyword_of_call_recorded_witness :
  (∀ a m, a ∈ [Name "path"] → m ∈ dispatched false a → inert m = true)
  ∧ (Some "dir_fd", NameConstant None) ∈ [(Some "dir_fd", NameConstant None)]
  ∧ ("open" ∉ user_defs init)
  ∧ is_Some (KWARGS_REQS example_rules !! ("open", Some "dir_fd"))
  ∧ ("open", Some "dir_fd")
    ∈ kwargs (visit example_rules false
                (Call (Name "open") [Name "path"]
                   [(Some "dir_fd", NameConstant None)]) init).
Proof.
  assert (H1 : ∀ a m, a ∈ [Name "path"] → m ∈ dispatched false a →
                      inert m = true).
  { intros a m ->%list_elem_of_singleton Hm. vm_compute in Hm.
    by apply list_elem_of_singleton in Hm as ->. }
  assert (H2 : (Some "dir_fd", NameConstant None)
               ∈ [(Some "dir_fd", NameConstant None)])
    by (by apply list_elem_of_singleton).
  assert (H3 : "open" ∉ user_defs init)
    by (intros H; by apply elem_of_nil in H).
  assert (H4 : is_Some (KWARGS_REQS example_rules !! ("open", Some "dir_fd")))
    by (eexists; apply lookup_singleton_eq).
  exact (conj H1 (conj H2 (conj H3 (conj H4
           (keyword_of_call_recorded example_rules false "open"
              (Some "dir_fd") (NameConstant None) [Name "path"]
              [(Some "dir_fd", NameConstant None)] init H1 H2 H3 H4))))).
Defined.
